(** * Shape generation from OSM rail data: a shallow embedding of
      [generate_shapes.py] and the properties of its graph engine.

    Numbers.  The Python program works on floats.  Coordinates are read
    from decimal text (JSON, CSV) and are only compared, subtracted and
    rounded: they are modelled by canonical rationals [Qc], with exact
    arithmetic.  Distances come out of [math.sin], [math.cos], [math.asin]
    and [math.sqrt]: they are modelled by the real numbers of the Standard
    Library, [float('inf')] by an extra point.  Rounding errors, NaN and the
    [ValueError] of [math] are outside the model.

    Containers.  [graph] is a [defaultdict(list)] whose iteration order
    (insertion order) is observable in [find_nearest_node]: it is an
    association list with unique keys.  [segment_geoms] is a plain [dict]
    that is only indexed: a [gmap].  [visited] is a [set]: a [gset]. *)

From Stdlib Require Import ZArith QArith Qcanon Reals Qreals Lra Lia.
From stdpp Require Import base decidable option list gmap strings.

Local Open Scope Z_scope.

(** ** Data model *)

(** A geometry point, [{'lat': ..., 'lon': ...}]. *)
Record LatLon : Type := mkLatLon { lat : Qc; lon : Qc }.

(** The [tags] object of an element; a missing tag is [None]. *)
Record Tags : Type := mkTags { usage : option string; service : option string }.

(** An OSM way element.  [tags] and [geometry] may be absent. *)
Record Element : Type := mkElement {
  id : Z;
  tags : option Tags;
  geometry : option (list LatLon)
}.

(** A coordinate tuple [(lat, lon)]; graph nodes are such tuples. *)
Abbreviation Coord := (Qc * Qc)%type.
Abbreviation Key := (Qc * Qc)%type.

(** An adjacency entry [(other_coord_key, segment_id, reversed)]. *)
Abbreviation Edge := (Key * Z * bool)%type.

(** [graph]: keys in insertion order, each with its list of edges. *)
Abbreviation Graph := (list (Key * list Edge)).

(** A path, list of [(segment_id, reversed)]. *)
Abbreviation Path := (list (Z * bool)).

#[global] Instance LatLon_eq_dec : EqDecision LatLon.
Proof. solve_decision. Defined.

(** ** load_osm_data: the filter *)

Definition excluded_usage : list string := ["military"; "industrial"]%string.
Definition excluded_service : list string :=
  ["yard"; "siding"; "spur"; "crossover"]%string.

(** [elem.get('tags', {})] followed by [tags.get('usage', 'unknown')]. *)
Definition elem_usage (elem : Element) : string :=
  match tags elem with
  | Some t => default "unknown"%string (usage t)
  | None => "unknown"%string
  end.

(** [tags.get('service', '')]. *)
Definition elem_service (elem : Element) : string :=
  match tags elem with
  | Some t => default ""%string (service t)
  | None => ""%string
  end.

(** ['geometry' in elem and len(elem['geometry']) > 0]. *)
Definition has_geometry (elem : Element) : bool :=
  match geometry elem with
  | Some g => bool_decide (0 < length g)%nat
  | None => false
  end.

Definition keep_element (elem : Element) : bool :=
  bool_decide (elem_usage elem ∉ excluded_usage)
  && bool_decide (elem_service elem ∉ excluded_service)
  && has_geometry elem.

(** The loop of [load_osm_data] over the decoded [elements]; the tag
    counters only feed the printed report. *)
Fixpoint load_osm_data (elements : list Element) : list Element :=
  match elements with
  | [] => []
  | elem :: rest =>
      if keep_element elem then elem :: load_osm_data rest
      else load_osm_data rest
  end.

(** ** build_track_graph *)

(** Round half to even, to an integer. *)
Definition round_half_even (x : Qc) : Z :=
  let n := Qnum x in
  let d := Z.pos (Qden x) in
  let q := n / d in
  match (2 * (n mod d)) ?= d with
  | Lt => q
  | Gt => q + 1
  | Eq => if Z.even q then q else q + 1
  end.

(** [round(x, ndigits)]. *)
Definition round (x : Qc) (ndigits : nat) : Qc :=
  let scale := 10 ^ Z.of_nat ndigits in
  Q2Qc (inject_Z (round_half_even (x * Q2Qc (inject_Z scale))%Qc) / inject_Z scale).

Definition coord_key (la lo : Qc) : Key := (round la 4, round lo 4).

(** [graph.get(k, [])]: a read, the key is not created. *)
Fixpoint graph_get (graph : Graph) (k : Key) : list Edge :=
  match graph with
  | [] => []
  | (k', es) :: rest => if decide (k' = k) then es else graph_get rest k
  end.

(** [graph[k].append(e)] on the [defaultdict]: a missing key is created
    at the end of the dictionary. *)
Fixpoint graph_append (graph : Graph) (k : Key) (e : Edge) : Graph :=
  match graph with
  | [] => [(k, [e])]
  | (k', es) :: rest =>
      if decide (k' = k) then (k', es ++ [e]) :: rest
      else (k', es) :: graph_append rest k e
  end.

(** [graph.keys()]. *)
Definition graph_keys (graph : Graph) : list Key := graph.*1.

Abbreviation GeometryStore := (gmap Z (list LatLon)).

(** One iteration of the loop over [segments].  [None] is the [KeyError]
    of [seg['geometry']]. *)
Definition build_step (st : Graph * GeometryStore) (seg : Element)
  : option (Graph * GeometryStore) :=
  let '(graph, segment_geoms) := st in
  let seg_id := id seg in
  geom ← geometry seg;
  if bool_decide (length geom < 2)%nat then Some st
  else
    p0 ← head geom;
    pn ← last geom;
    let start := coord_key (lat p0) (lon p0) in
    let end_ := coord_key (lat pn) (lon pn) in
    let segment_geoms := <[seg_id := geom]> segment_geoms in
    let graph := graph_append graph start (end_, seg_id, false) in
    let graph := graph_append graph end_ (start, seg_id, true) in
    Some (graph, segment_geoms).

Fixpoint build_loop (segments : list Element) (st : Graph * GeometryStore)
  : option (Graph * GeometryStore) :=
  match segments with
  | [] => Some st
  | seg :: rest => st' ← build_step st seg; build_loop rest st'
  end.

Definition build_track_graph (segments : list Element)
  : option (Graph * GeometryStore) :=
  build_loop segments ([], ∅).

(** ** haversine *)

Definition radians (x : R) : R := (x * (PI / 180))%R.

(** Distance between two points in km. *)
Definition haversine (lat1 lon1 lat2 lon2 : Qc) : R :=
  let R_ := 6371%R in
  let dlat := radians (Q2R (lat2 - lat1)%Qc) in
  let dlon := radians (Q2R (lon2 - lon1)%Qc) in
  let a := ((sin (dlat / 2)) ^ 2
            + cos (radians (Q2R lat1)) * cos (radians (Q2R lat2))
              * (sin (dlon / 2)) ^ 2)%R in
  let c := (2 * asin (sqrt a))%R in
  (R_ * c)%R.

(** ** find_nearest_node *)

(** A distance, or [float('inf')]. *)
Inductive Dist : Type :=
  | Fin (d : R)
  | Inf.

#[global] Instance Rlt_decision (x y : R) : Decision (x < y)%R := Rlt_dec x y.
#[global] Instance Rgt_decision (x y : R) : Decision (x > y)%R := Rgt_dec x y.

(** [dist < best_dist]. *)
Definition dist_lt (dist : R) (best_dist : Dist) : Prop :=
  match best_dist with
  | Fin b => (dist < b)%R
  | Inf => True
  end.

(** [best_dist > max_dist_km]. *)
Definition dist_gt (best_dist : Dist) (max_dist_km : R) : Prop :=
  match best_dist with
  | Fin b => (b > max_dist_km)%R
  | Inf => True
  end.

#[global] Instance dist_lt_dec dist best_dist : Decision (dist_lt dist best_dist).
Proof. destruct best_dist; simpl; apply _. Defined.
#[global] Instance dist_gt_dec best_dist max_dist_km :
  Decision (dist_gt best_dist max_dist_km).
Proof. destruct best_dist; simpl; apply _. Defined.

(** The scan [for node in graph.keys()]. *)
Fixpoint nearest_scan (nodes : list Key) (la lo : Qc)
    (best_node : option Key) (best_dist : Dist) : option Key * Dist :=
  match nodes with
  | [] => (best_node, best_dist)
  | node :: rest =>
      let dist := haversine la lo node.1 node.2 in
      if decide (dist_lt dist best_dist)
      then nearest_scan rest la lo (Some node) (Fin dist)
      else nearest_scan rest la lo best_node best_dist
  end.

Definition find_nearest_node (graph : Graph) (la lo : Qc) (max_dist_km : R)
  : option Key * Dist :=
  let '(best_node, best_dist) := nearest_scan (graph_keys graph) la lo None Inf in
  if decide (dist_gt best_dist max_dist_km) then (None, best_dist)
  else (best_node, best_dist).

(** The default of [max_dist_km]. *)
Definition default_max_dist_km : R := 10%R.

(** ** find_path_bfs *)

(** Outcome of the inner [for] loop over the edges of [current]: the
    function returned [new_path], or the loop ended with the updated
    [visited] and [queue]. *)
Inductive Scan : Type :=
  | Return (new_path : Path)
  | Next (visited : gset Key) (queue : list (Key * Path)).

Fixpoint scan_edges (edges : list Edge) (end_node : Key) (path : Path)
    (visited : gset Key) (queue : list (Key * Path)) : Scan :=
  match edges with
  | [] => Next visited queue
  | (next_node, seg_id, reversed_dir) :: rest =>
      if decide (next_node ∈ visited)
      then scan_edges rest end_node path visited queue
      else
        let new_path := path ++ [(seg_id, reversed_dir)] in
        if decide (next_node = end_node) then Return new_path
        else scan_edges rest end_node path
               ({[next_node]} ∪ visited) (queue ++ [(next_node, new_path)])
  end.

(** The [while queue] loop.  The outer [None] says that [fuel] iterations
    were not enough; [Some None] is Python's [return None]. *)
Fixpoint bfs_loop (fuel : nat) (graph : Graph) (end_node : Key)
    (max_segments : nat) (queue : list (Key * Path)) (visited : gset Key)
  : option (option Path) :=
  match fuel with
  | O => None
  | S fuel' =>
      match queue with
      | [] => Some None
      | (current, path) :: queue' =>
          if decide (max_segments < length path)%nat
          then bfs_loop fuel' graph end_node max_segments queue' visited
          else
            match scan_edges (graph_get graph current) end_node path visited queue' with
            | Return new_path => Some (Some new_path)
            | Next visited' queue'' =>
                bfs_loop fuel' graph end_node max_segments queue'' visited'
            end
      end
  end.

Definition find_path_bfs_fuel (fuel : nat) (graph : Graph)
    (segment_geoms : GeometryStore) (start_node end_node : Key)
    (max_segments : nat) : option (option Path) :=
  if decide (start_node = end_node) then Some (Some [])
  else bfs_loop fuel graph end_node max_segments
         [(start_node, [])] {[start_node]}.

(** Every node enters the queue at most once and every queued node but
    the first is the target of an edge, so the loop runs at most one time
    more than there are edges, and once more to see the empty queue. *)
Definition bfs_fuel (graph : Graph) : nat :=
  2 + length (concat (graph.*2)).

(** [find_path_bfs]: [None] is Python's [None], no path found. *)
Definition find_path_bfs (graph : Graph) (segment_geoms : GeometryStore)
    (start_node end_node : Key) (max_segments : nat) : option Path :=
  default None
    (find_path_bfs_fuel (bfs_fuel graph) graph segment_geoms
       start_node end_node max_segments).

(** The default of [max_segments]. *)
Definition default_max_segments : nat := 500.

(** ** path_to_coordinates *)

(** [[(p['lat'], p['lon']) for p in geom]], reversed when asked. *)
Definition segment_points (geom : list LatLon) (reversed_dir : bool) : list Coord :=
  let points := (λ p, (lat p, lon p)) <$> geom in
  if reversed_dir then reverse points else points.

(** The junction test: [coords and points] and [coords[-1] == points[0]]. *)
Definition junction_duplicate (coords points : list Coord) : bool :=
  match last coords, head points with
  | Some c, Some p => bool_decide (c = p)
  | _, _ => false
  end.

(** The loop over [path], [coords] being the list built so far.  [None] is
    the [KeyError] of [segment_geoms[seg_id]]. *)
Fixpoint path_to_coordinates_from (coords : list Coord) (path : Path)
    (segment_geoms : GeometryStore) : option (list Coord) :=
  match path with
  | [] => Some coords
  | (seg_id, reversed_dir) :: rest =>
      geom ← segment_geoms !! seg_id;
      let points := segment_points geom reversed_dir in
      let points :=
        if junction_duplicate coords points then drop 1 points else points in
      path_to_coordinates_from (coords ++ points) rest segment_geoms
  end.

Definition path_to_coordinates (path : Path) (segment_geoms : GeometryStore)
  : option (list Coord) :=
  path_to_coordinates_from [] path segment_geoms.

(** ** generate_shapes *)

Record Station : Type := mkStation {
  station_lat : Qc;
  station_lon : Qc;
  station_name : string
}.

Record RouteInfo : Type := mkRoute {
  name : string;
  terminals : string * string
}.

(** The route table, in the order of the dictionary. *)
Definition ROUTES : list (string * RouteInfo) :=
  [ ("AL_BORAQ_TNG_CASA", mkRoute "Al Boraq Tanger-Casa" ("TANGER_BORAQ", "CASA_VOYAGEURS"));
    ("AL_BORAQ_TNG_MKC", mkRoute "Al Boraq Tanger-Marrakech" ("TANGER_BORAQ", "MARRAKECH"));
    ("AL_ATLAS_CASA_MKC", mkRoute "Al Atlas Casa-Marrakech" ("CASA_VOYAGEURS", "MARRAKECH"));
    ("AL_ATLAS_CASA_FES", mkRoute "Al Atlas Casa-Fes" ("CASA_VOYAGEURS", "FES"));
    ("AL_ATLAS_CASA_OUJDA", mkRoute "Al Atlas Casa-Oujda" ("CASA_VOYAGEURS", "OUJDA"));
    ("AL_ATLAS_MKC_FES", mkRoute "Al Atlas Marrakech-Fes" ("MARRAKECH", "FES"));
    ("TNR_CASA_AIRPORT", mkRoute "TNR Casa-Airport" ("CASA_VOYAGEURS", "AIN_SEBAA"));
    ("TNR_CASA_SETTAT", mkRoute "TNR Casa-Settat" ("CASA_VOYAGEURS", "SETTAT"));
    ("TNR_KENITRA_CASA", mkRoute "TNR Kenitra-Casa" ("KENITRA", "CASA_VOYAGEURS")) ]%string.

(** A collected shape, [(shape_id, coords)]. *)
Abbreviation Shape := (string * list Coord)%type.

(** The lines printed inside the loop over the routes. *)
Inductive Msg : Type :=
  | MsgRoute (route_name : string)
  | MsgStationNotFound
  | MsgStart (terminal : string) (node : option Key) (dist : Dist)
  | MsgEnd (terminal : string) (node : option Key) (dist : Dist)
  | MsgNoGraphNodes
  | MsgNoPath
  | MsgFoundPath (nsegments npoints : nat)
  | MsgTotalDistance (km : R).

(** [for i in range(1, len(coords)): total_dist += haversine(...)]. *)
Fixpoint total_distance (coords : list Coord) : R :=
  match coords with
  | c1 :: (c2 :: _) as rest =>
      (haversine c1.1 c1.2 c2.1 c2.2 + total_distance rest)%R
  | _ => 0%R
  end.

(** Python's [not path] for the result of [find_path_bfs]: true on [None]
    and on the empty list. *)
Definition not_path (path : option Path) : bool :=
  match path with
  | None | Some [] => true
  | Some (_ :: _) => false
  end.

(** The rest of an iteration once [path] is known.  [None] is the
    [KeyError] of [path_to_coordinates]. *)
Definition route_after_path (route_id : string) (path : option Path)
    (segment_geoms : GeometryStore) (shapes : list Shape)
  : option (list Shape * list Msg) :=
  if not_path path then Some (shapes, [MsgNoPath])
  else
    coords ← path_to_coordinates (default [] path) segment_geoms;
    Some (shapes ++ [(route_id, coords)],
          [MsgFoundPath (length (default [] path)) (length coords);
           MsgTotalDistance (total_distance coords)]).

(** One iteration of [for route_id, route_info in ROUTES.items()]: the new
    [shapes] and the lines printed. *)
Definition route_iteration (STATIONS : gmap string Station) (graph : Graph)
    (segment_geoms : GeometryStore) (route : string * RouteInfo)
    (shapes : list Shape) : option (list Shape * list Msg) :=
  let '(route_id, route_info) := route in
  let header := [MsgRoute (name route_info)] in
  match STATIONS !! (terminals route_info).1, STATIONS !! (terminals route_info).2 with
  | Some start_station, Some end_station =>
      let '(start_node, start_dist) :=
        find_nearest_node graph (station_lat start_station)
          (station_lon start_station) default_max_dist_km in
      let '(end_node, end_dist) :=
        find_nearest_node graph (station_lat end_station)
          (station_lon end_station) default_max_dist_km in
      let found :=
        [MsgStart (terminals route_info).1 start_node start_dist;
         MsgEnd (terminals route_info).2 end_node end_dist] in
      match start_node, end_node with
      | Some start_node, Some end_node =>
          let path :=
            find_path_bfs graph segment_geoms start_node end_node
              default_max_segments in
          '(shapes', msgs) ← route_after_path route_id path segment_geoms shapes;
          Some (shapes', header ++ found ++ msgs)
      | _, _ => Some (shapes, header ++ found ++ [MsgNoGraphNodes])
      end
  | _, _ => Some (shapes, header ++ [MsgStationNotFound])
  end.

Fixpoint routes_loop (STATIONS : gmap string Station) (graph : Graph)
    (segment_geoms : GeometryStore) (routes : list (string * RouteInfo))
    (shapes : list Shape) (log : list Msg) : option (list Shape * list Msg) :=
  match routes with
  | [] => Some (shapes, log)
  | route :: rest =>
      '(shapes', msgs) ← route_iteration STATIONS graph segment_geoms route shapes;
      routes_loop STATIONS graph segment_geoms rest shapes' (log ++ msgs)
  end.

(** A data row of [shapes.txt].  The columns are the numbers handed to the
    formatter, before [:.6f] and [:.1f]. *)
Record ShapeRow : Type := mkRow {
  shape_id : string;
  shape_pt_lat : Qc;
  shape_pt_lon : Qc;
  shape_pt_sequence : nat;
  shape_dist_traveled : R
}.

(** The update of [dist_traveled] at index [i]; [coords[i-1]] is in range
    whenever [i > 0]. *)
Definition advance (coords : list Coord) (i : nat) (la lo : Qc)
    (dist_traveled : R) : R :=
  if decide (0 < i)%nat then
    match coords !! (i - 1)%nat with
    | Some prev => (dist_traveled + haversine prev.1 prev.2 la lo * 1000)%R
    | None => dist_traveled
    end
  else dist_traveled.

(** [for i, (lat, lon) in enumerate(coords)], from index [i] on, [todo]
    being [coords[i:]]. *)
Fixpoint shape_rows_from (shape_id : string) (coords : list Coord) (i : nat)
    (dist_traveled : R) (todo : list Coord) : list ShapeRow :=
  match todo with
  | [] => []
  | (la, lo) :: rest =>
      let dist_traveled := advance coords i la lo dist_traveled in
      mkRow shape_id la lo (i + 1) dist_traveled
      :: shape_rows_from shape_id coords (S i) dist_traveled rest
  end.

Definition shape_rows (shape : Shape) : list ShapeRow :=
  let '(shape_id, coords) := shape in
  shape_rows_from shape_id coords 0 0%R coords.

(** The data rows of [shapes.txt]. *)
Definition write_shapes (shapes : list Shape) : list ShapeRow :=
  shapes ≫= shape_rows.

(** [generate_shapes], up to the writing of [shapes.txt]: the shapes, the
    log of the route loop and the rows written. *)
Definition generate_shapes (STATIONS : gmap string Station)
    (elements : list Element)
  : option (list Shape * list Msg * list ShapeRow) :=
  let segments := load_osm_data elements in
  '(graph, segment_geoms) ← build_track_graph segments;
  '(shapes, log) ← routes_loop STATIONS graph segment_geoms ROUTES [] [];
  Some (shapes, log, write_shapes shapes).

(** ** The functions as programs over the shared dictionaries

    [graph] and [segment_geoms] are objects that [generate_shapes] builds
    once and hands to every later call.  Here they sit in a store, and each
    function is the sequence of dictionary operations the source performs:
    [graph.keys()], [graph.get(k, [])] and [segment_geoms[k]] read;
    [graph[k].append(e)] and [segment_geoms[k] = v] write. *)
Module Heap.

Record Store : Type := mkStore {
  graph : Graph;
  segment_geoms : GeometryStore
}.

Inductive Outcome (A : Type) : Type :=
  | Ok (a : A)
  | KeyError.
Arguments Ok {A} a.
Arguments KeyError {A}.

Definition M (A : Type) : Type := Store → Outcome A * Store.

Definition ret {A} (a : A) : M A := λ σ, (Ok a, σ).

Definition bind {A B} (m : M A) (k : A → M B) : M B :=
  λ σ, match m σ with
       | (Ok a, σ') => k a σ'
       | (KeyError, σ') => (KeyError, σ')
       end.

Notation "'do' x <- m 'in' k" := (bind m (λ x, k))
  (at level 10, x name, m at level 100, k at level 200).

(** [graph.keys()]. *)
Definition keys : M (list Key) := λ σ, (Ok (graph_keys (graph σ)), σ).

(** [graph.get(k, [])]. *)
Definition get (k : Key) : M (list Edge) :=
  λ σ, (Ok (graph_get (graph σ) k), σ).

(** [graph[k].append(e)]. *)
Definition getitem_append (k : Key) (e : Edge) : M unit :=
  λ σ, (Ok tt, mkStore (graph_append (graph σ) k e) (segment_geoms σ)).

(** [segment_geoms[seg_id]]. *)
Definition geoms_getitem (seg_id : Z) : M (list LatLon) :=
  λ σ, match segment_geoms σ !! seg_id with
       | Some geom => (Ok geom, σ)
       | None => (KeyError, σ)
       end.

(** [segment_geoms[seg_id] = geom]. *)
Definition geoms_setitem (seg_id : Z) (geom : list LatLon) : M unit :=
  λ σ, (Ok tt, mkStore (graph σ) (<[seg_id := geom]> (segment_geoms σ))).

(** A failed subscript on a local value. *)
Definition raise {A} : M A := λ σ, (KeyError, σ).

Definition build_step (seg : Element) : M unit :=
  let seg_id := id seg in
  match geometry seg with
  | None => raise
  | Some geom =>
      if bool_decide (length geom < 2)%nat then ret tt
      else
        match head geom, last geom with
        | Some p0, Some pn =>
            let start := coord_key (lat p0) (lon p0) in
            let end_ := coord_key (lat pn) (lon pn) in
            do _ <- geoms_setitem seg_id geom in
            do _ <- getitem_append start (end_, seg_id, false) in
            getitem_append end_ (start, seg_id, true)
        | _, _ => raise
        end
  end.

Fixpoint build_loop (segments : list Element) : M unit :=
  match segments with
  | [] => ret tt
  | seg :: rest => do _ <- build_step seg in build_loop rest
  end.

(** [build_track_graph], run on the two fresh dictionaries. *)
Definition build_track_graph (segments : list Element) : Outcome unit * Store :=
  build_loop segments (mkStore [] ∅).

Definition find_nearest_node (la lo : Qc) (max_dist_km : R)
  : M (option Key * Dist) :=
  do nodes <- keys in
  let '(best_node, best_dist) := nearest_scan nodes la lo None Inf in
  if decide (dist_gt best_dist max_dist_km) then ret (None, best_dist)
  else ret (best_node, best_dist).

Fixpoint bfs_loop (fuel : nat) (end_node : Key) (max_segments : nat)
    (queue : list (Key * Path)) (visited : gset Key)
  : M (option (option Path)) :=
  match fuel with
  | O => ret None
  | S fuel' =>
      match queue with
      | [] => ret (Some None)
      | (current, path) :: queue' =>
          if decide (max_segments < length path)%nat
          then bfs_loop fuel' end_node max_segments queue' visited
          else
            do edges <- get current in
            match scan_edges edges end_node path visited queue' with
            | Return new_path => ret (Some (Some new_path))
            | Next visited' queue'' =>
                bfs_loop fuel' end_node max_segments queue'' visited'
            end
      end
  end.

Definition find_path_bfs_fuel (fuel : nat) (start_node end_node : Key)
    (max_segments : nat) : M (option (option Path)) :=
  if decide (start_node = end_node) then ret (Some (Some []))
  else bfs_loop fuel end_node max_segments [(start_node, [])] {[start_node]}.

Fixpoint path_to_coordinates_from (coords : list Coord) (path : Path)
  : M (list Coord) :=
  match path with
  | [] => ret coords
  | (seg_id, reversed_dir) :: rest =>
      do geom <- geoms_getitem seg_id in
      let points := segment_points geom reversed_dir in
      let points :=
        if junction_duplicate coords points then drop 1 points else points in
      path_to_coordinates_from (coords ++ points) rest
  end.

Definition path_to_coordinates (path : Path) : M (list Coord) :=
  path_to_coordinates_from [] path.

(** The pure functions' [option] as an outcome. *)
Definition of_option {A} (o : option A) : Outcome A :=
  match o with
  | Some a => Ok a
  | None => KeyError
  end.

End Heap.

(** ** What the specification says of the filter *)

(** The tags as the input has them, absent ones included. *)
Definition tag_usage (elem : Element) : option string := tags elem ≫= usage.
Definition tag_service (elem : Element) : option string := tags elem ≫= service.

(** The specification's inclusion rule: the usage tag is not military or
    industrial, the service tag is not yard, siding, spur or crossover, and
    the geometry is present and not empty. *)
Definition included (elem : Element) : Prop :=
  (tag_usage elem ∉ [Some "military"; Some "industrial"]%string)
  ∧ (tag_service elem ∉
       [Some "yard"; Some "siding"; Some "spur"; Some "crossover"]%string)
  ∧ match geometry elem with Some g => g ≠ [] | None => False end.

#[global] Instance included_dec elem : Decision (included elem).
Proof. unfold included. destruct (geometry elem); apply _. Defined.

(** ** The edges of a graph and of a segment *)

(** All the edges of the graph, each with the key it is stored under. *)
Definition graph_edges (graph : Graph) : list (Key * Edge) :=
  '(k, es) ← graph; (λ e, (k, e)) <$> es.

(** The segment id an edge carries. *)
Definition edge_id (ke : Key * Edge) : Z := ke.2.1.2.

(** The edges carrying a given segment id. *)
Definition edges_of_id (graph : Graph) (seg_id : Z) : list (Key * Edge) :=
  filter (λ ke, edge_id ke = seg_id) (graph_edges graph).

(** The two edges the specification asks of a segment: start to end
    forward, end to start reversed; none below two points. *)
Definition segment_edges (seg : Element) : list (Key * Edge) :=
  match geometry seg with
  | Some geom =>
      match head geom, last geom with
      | Some p0, Some pn =>
          if decide (2 ≤ length geom)%nat then
            let start := coord_key (lat p0) (lon p0) in
            let end_ := coord_key (lat pn) (lon pn) in
            [(start, (end_, id seg, false)); (end_, (start, id seg, true))]
          else []
      | _, _ => []
      end
  | None => []
  end.

(** ** Point counts and junction duplicates of a path *)

(** The junction test at step [i] of the path: the list emitted by the
    steps before [i] ends with the first point of the list of step [i]. *)
Definition junction_at (path : Path) (segment_geoms : GeometryStore)
    (i : nat) : bool :=
  match path_to_coordinates (take i path) segment_geoms, path !! i with
  | Some emitted, Some (seg_id, reversed_dir) =>
      match segment_geoms !! seg_id with
      | Some geom =>
          junction_duplicate emitted (segment_points geom reversed_dir)
      | None => false
      end
  | _, _ => false
  end.

(** The number of steps at which a junction duplicate is detected. *)
Definition junction_duplicates (path : Path) (segment_geoms : GeometryStore)
  : nat :=
  length (filter (λ i, junction_at path segment_geoms i = true)
            (seq 0 (length path))).

(** The number of points of the segment of a step. *)
Definition point_count (segment_geoms : GeometryStore) (step : Z * bool) : nat :=
  match segment_geoms !! step.1 with
  | Some geom => length geom
  | None => 0%nat
  end.

Definition total_points (path : Path) (segment_geoms : GeometryStore) : nat :=
  sum_list_with (point_count segment_geoms) path.

(** ** Distances to a target and the order of keys *)

(** The distance of a node from the target [(la, lo)]. *)
Definition dist_to (la lo : Qc) (node : Key) : R :=
  haversine la lo node.1 node.2.

(** [d] is the minimum distance from the target to the nodes; over no
    node at all it is [Inf]. *)
Definition min_distance (nodes : list Key) (la lo : Qc) (d : Dist) : Prop :=
  match d with
  | Fin m =>
      (∃ n, n ∈ nodes ∧ dist_to la lo n = m)
      ∧ ∀ node, node ∈ nodes → (m <= dist_to la lo node)%R
  | Inf => nodes = []
  end.

(** The lexicographic order of coordinate keys, Python's [<] on tuples. *)
Definition key_lt (a b : Key) : Prop :=
  (a.1 < b.1)%Qc ∨ (a.1 = b.1 ∧ (a.2 < b.2)%Qc).

(** The tie rule of the specification at one input: among the keys at the
    distance of the returned node, none is lexicographically smaller. *)
Definition lexicographic_tie_break (graph : Graph) (la lo : Qc)
    (max_dist_km : R) : Prop :=
  ∀ n, (find_nearest_node graph la lo max_dist_km).1 = Some n →
    ∀ n', n' ∈ graph_keys graph →
      dist_to la lo n' = dist_to la lo n → ¬ key_lt n' n.

(** ** A two-node network for the examples

    One track of two points on the equator, a hundredth of a degree east
    and west of the origin. *)
Definition centi (n : Z) : Qc := Q2Qc (n # 100).

Definition ex_east : Key := coord_key (Q2Qc 0) (centi 1).
Definition ex_west : Key := coord_key (Q2Qc 0) (centi (-1)).

Definition ex_geom : list LatLon :=
  [mkLatLon (Q2Qc 0) (centi 1); mkLatLon (Q2Qc 0) (centi (-1))].

Definition ex_elements : list Element :=
  [mkElement 7 (Some (mkTags (Some "main"%string) None)) (Some ex_geom)].

Definition ex_graph : Graph :=
  [(ex_east, [(ex_west, 7, false)]); (ex_west, [(ex_east, 7, true)])].

Definition ex_geoms : GeometryStore := {[ 7 := ex_geom ]}.

(** The track taken from west to east, against its stored direction. *)
Definition ex_path : Path := [(7, true)].

(** ** Walks in the graph *)

(** [walk graph u path w]: the steps of [path] follow edges of the graph
    from [u] to [w], each edge taken from the list stored under the node it
    leaves. *)
Inductive walk (graph : Graph) : Key → Path → Key → Prop :=
  | walk_nil u : walk graph u [] u
  | walk_cons u v w seg_id reversed_dir path :
      (v, seg_id, reversed_dir) ∈ graph_get graph u →
      walk graph v path w →
      walk graph u ((seg_id, reversed_dir) :: path) w.

(** The nodes that edges of the graph lead to. *)
Definition targets (graph : Graph) : gset Key :=
  list_to_set (concat graph.*2).*1.*1.

(** The invariant of the [while] loop, for a search from [start_node] to
    [end_node].  The queue is [q1 ++ q2]; the paths of [q1] have [d] steps,
    those of [q2] one more.  [expanded] holds the nodes whose edges have
    all been scanned. *)
Record bfs_inv (graph : Graph) (start_node end_node : Key) (d : nat)
    (q1 q2 : list (Key * Path)) (visited expanded : gset Key) : Prop := {
  inv_end : end_node ∉ visited;
  inv_visited : ∀ v, v ∈ visited → v ∈ expanded ∨ v ∈ (q1 ++ q2).*1;
  inv_expanded : ∀ u v seg_id reversed_dir,
    u ∈ expanded → (v, seg_id, reversed_dir) ∈ graph_get graph u → v ∈ visited;
  inv_q1 : ∀ u p, (u, p) ∈ q1 → walk graph start_node p u ∧ length p = d;
  inv_q2 : ∀ u p, (u, p) ∈ q2 → walk graph start_node p u ∧ length p = S d;
  inv_below : ∀ w q, walk graph start_node q w → (length q < d)%nat → w ∈ expanded;
  inv_level : ∀ w q, walk graph start_node q w → length q = d →
    w ∈ expanded ∨ w ∈ q1.*1
}.

(** ** Two stations at the origin, and a route between them *)
Definition ex_stations : gmap string Station :=
  {[ "A"%string := mkStation (Q2Qc 0) (Q2Qc 0) "Origin A"%string;
     "B"%string := mkStation (Q2Qc 0) (Q2Qc 0) "Origin B"%string ]}.

Definition ex_route : string * RouteInfo :=
  ("A_B", mkRoute "A-B" ("A", "B"))%string.

(** ** The text of a distance *)

(** Round half to even on a real number. *)
Definition Rround_half_even (x : R) : Z :=
  let q := Zfloor x in
  if decide (x - IZR q < 1 / 2)%R then q
  else if decide (x - IZR q > 1 / 2)%R then q + 1
  else if Z.even q then q else q + 1.

(** [f"{dist_traveled:.1f}"]: the decimal written, counted in tenths. *)
Definition format_1f (x : R) : Z := Rround_half_even (x * 10).

(** ** A chain A - B - C - D with a yard track and a stub

    Track 1 runs from A to B through a middle point, track 2 is stored from
    C to B, track 3 runs from C to D.  Track 4 is a yard track beside B and
    track 5 has a single point. *)
Definition milli (n : Z) : Qc := Q2Qc (n # 1000).

Definition pt (n : Z) : LatLon := mkLatLon (Q2Qc 0) (milli n).

Definition chain_elements : list Element :=
  [ mkElement 1 (Some (mkTags (Some "main"%string) None)) (Some [pt 0; pt 5; pt 10]);
    mkElement 2 (Some (mkTags None None)) (Some [pt 20; pt 10]);
    mkElement 3 None (Some [pt 20; pt 30]);
    mkElement 4 (Some (mkTags (Some "main"%string) (Some "yard"%string)))
      (Some [pt 10; pt 11]);
    mkElement 5 None (Some [pt 30]);
    mkElement 6 (Some (mkTags (Some "military"%string) None)) (Some [pt 30; pt 40]);
    mkElement 8 None None ].

Definition chain_graph : Graph :=
  default [] (fst <$> build_track_graph (load_osm_data chain_elements)).

Definition chain_geoms : GeometryStore :=
  default ∅ (snd <$> build_track_graph (load_osm_data chain_elements)).

Definition node (n : Z) : Key := coord_key (Q2Qc 0) (milli n).

(** The two rationals of a coordinate, without the proofs that they are
    in lowest terms. *)
Definition plain (c : Coord) : Q * Q := (this c.1, this c.2).

(** ** A path taken backwards *)

(** The same segments in the opposite order, each in the opposite
    direction. *)
Definition reverse_path (path : Path) : Path :=
  (λ step : Z * bool, (step.1, negb step.2)) <$> reverse path.

(** ** load_osm_data: the tag counters *)

(** [counts[k] += 1] on a [defaultdict(int)]. *)
Definition count_incr (counts : gmap string nat) (k : string) : gmap string nat :=
  <[k := S (default 0%nat (counts !! k))]> counts.

(** [usage_counts] and [service_counts] as the loop over [elements]
    leaves them; [if service:] skips the empty string. *)
Fixpoint tag_counts (elements : list Element)
    (usage_counts service_counts : gmap string nat)
  : gmap string nat * gmap string nat :=
  match elements with
  | [] => (usage_counts, service_counts)
  | elem :: rest =>
      let usage := elem_usage elem in
      let service := elem_service elem in
      let usage_counts := count_incr usage_counts usage in
      let service_counts :=
        if decide (service ≠ ""%string) then count_incr service_counts service
        else service_counts in
      tag_counts rest usage_counts service_counts
  end.

(** ** generate_shapes: the update of the trips *)

(** [{route_id: route_id for route_id in ROUTES.keys()}]. *)
Definition route_to_shape : gmap string string :=
  list_to_map ((λ route : string * RouteInfo, (route.1, route.1)) <$> ROUTES).

(** The header, with [shape_id] added when it is not there. *)
Definition update_fieldnames (fieldnames : list string) : list string :=
  if decide ("shape_id"%string ∈ fieldnames) then fieldnames
  else fieldnames ++ ["shape_id"%string].

(** One round of [for trip in trips]; [None] is the [KeyError] of
    [trip['route_id']]. *)
Definition update_trip (trip : gmap string string) : option (gmap string string) :=
  route_id ← trip !! "route_id"%string;
  Some (<["shape_id"%string := default ""%string (route_to_shape !! route_id)]> trip).

Definition update_trips (trips : list (gmap string string))
  : option (list (gmap string string)) :=
  mapM update_trip trips.

(** A header and a trip for the examples. *)
Definition ex_fieldnames : list string := ["route_id"; "trip_id"]%string.

Definition ex_trip : gmap string string :=
  {[ "route_id"%string := "TNR_CASA_SETTAT"%string;
     "trip_id"%string := "T1"%string ]}.

(** ** Joining coordinate lists *)

(** One round of the loop of [path_to_coordinates]: [coords] extended by
    [points], without the first point when it repeats the last of
    [coords]. *)
Definition join (coords points : list Coord) : list Coord :=
  coords ++ if junction_duplicate coords points then drop 1 points else points.

(** ** Two tracks under one id

    Two tracks of two points share id 1; a track of two points and a stub
    of one point share id 2. *)
Definition dup_elements : list Element :=
  [ mkElement 1 None (Some [pt 0; pt 10]);
    mkElement 1 None (Some [pt 10; pt 20]);
    mkElement 2 None (Some [pt 20; pt 30]);
    mkElement 2 None (Some [pt 40]) ].

Definition dup_graph : Graph :=
  default [] (fst <$> build_track_graph (load_osm_data dup_elements)).

Definition dup_geoms : GeometryStore :=
  default ∅ (snd <$> build_track_graph (load_osm_data dup_elements)).

(** What the specification says of the edges of the segments, for one
    input and with no condition on the ids: a segment of at least two
    points has exactly its two edges under its id, a shorter one has no edge
    and no entry in the geometry store. *)
Definition two_edges_per_segment (elements : list Element) : Prop :=
  ∀ graph segment_geoms,
    build_track_graph (load_osm_data elements) = Some (graph, segment_geoms) →
    ∀ seg geom p0 pn,
      seg ∈ load_osm_data elements →
      geometry seg = Some geom → head geom = Some p0 → last geom = Some pn →
      if decide (2 ≤ length geom)%nat then
        edges_of_id graph (id seg)
        ≡ₚ [(coord_key (lat p0) (lon p0),
              (coord_key (lat pn) (lon pn), id seg, false));
             (coord_key (lat pn) (lon pn),
              (coord_key (lat p0) (lon p0), id seg, true))]
      else
        edges_of_id graph (id seg) = [] ∧ segment_geoms !! id seg = None.



(** * Properties *)

(** ** SegmentFilter *)

Lemma keep_element_included (elem : Element) :
  keep_element elem = true ↔ included elem.
Proof.
  unfold keep_element, included, has_geometry, elem_usage, elem_service,
    tag_usage, tag_service, excluded_usage, excluded_service.
  rewrite !andb_true_iff, !bool_decide_eq_true.
  assert (Hg : match geometry elem with
               | Some g => bool_decide (0 < length g)%nat
               | None => false
               end = true
               ↔ match geometry elem with Some g => g ≠ [] | None => False end).
  { destruct (geometry elem) as [[|p g]|]; simpl;
      rewrite ?bool_decide_eq_true; split; try done; try lia. }
  rewrite Hg. clear Hg.
  destruct (tags elem) as [[[u|] [s|]]|]; simpl;
    rewrite !list_elem_of_In; simpl; intuition congruence.
Qed.

(** C7.  The filter keeps exactly the elements the inclusion rule admits, in
    their input order: an element is kept if and only if its usage tag is
    not military or industrial, its service tag is not yard, siding, spur or
    crossover, and its geometry is present and not empty.  Absent and
    unknown tags pass.  The function is total: no input makes it fail. *)
Theorem load_osm_data_filter (elements : list Element) :
  load_osm_data elements = filter included elements.
Proof.
  induction elements as [|elem rest IH]; simpl; [done|].
  rewrite filter_cons. destruct (decide (included elem)) as [Hi|Hn].
  - apply keep_element_included in Hi. rewrite Hi, IH. done.
  - destruct (keep_element elem) eqn:Hk; [|done].
    apply keep_element_included in Hk. done.
Qed.

(** ** TrackGraphBuilder *)

Lemma graph_edges_append (graph : Graph) (k : Key) (e : Edge) :
  graph_edges (graph_append graph k e) ≡ₚ graph_edges graph ++ [(k, e)].
Proof.
  unfold graph_edges.
  induction graph as [|[k' es] rest IH]; simpl; [done|].
  destruct (decide (k' = k)) as [->|Hne]; simpl.
  - rewrite fmap_app. simpl. rewrite <- !app_assoc.
    apply Permutation_app_head. apply Permutation_app_comm.
  - rewrite IH. rewrite app_assoc. done.
Qed.

Lemma graph_get_edges (graph : Graph) (k : Key) (e : Edge) :
  e ∈ graph_get graph k → (k, e) ∈ graph_edges graph.
Proof.
  unfold graph_edges.
  induction graph as [|[k' es] rest IH]; simpl; [by intros ?%elem_of_nil|].
  destruct (decide (k' = k)) as [->|Hne]; intros Hin; apply elem_of_app.
  - left. apply list_elem_of_fmap. eauto.
  - right. auto.
Qed.

#[local] Arguments build_step : simpl never.

Lemma build_step_edges graph geoms seg graph' geoms' :
  build_step (graph, geoms) seg = Some (graph', geoms') →
  graph_edges graph' ≡ₚ graph_edges graph ++ segment_edges seg.
Proof.
  unfold build_step, segment_edges.
  destruct (geometry seg) as [geom|]; simpl; [|done].
  case_bool_decide as Hlen.
  - intros [= <- <-].
    destruct (head geom), (last geom); try (by rewrite app_nil_r).
    rewrite decide_False by lia. by rewrite app_nil_r.
  - destruct (head geom) as [p0|]; simpl; [|done].
    destruct (last geom) as [pn|]; simpl; [|done].
    intros [= <- <-]. rewrite decide_True by lia.
    rewrite !graph_edges_append. rewrite <- app_assoc. done.
Qed.

Lemma build_loop_edges segments graph geoms graph' geoms' :
  build_loop segments (graph, geoms) = Some (graph', geoms') →
  graph_edges graph' ≡ₚ graph_edges graph ++ (segments ≫= segment_edges).
Proof.
  revert graph geoms.
  induction segments as [|seg rest IH]; intros graph geoms; simpl.
  - intros [= <- <-]. by rewrite app_nil_r.
  - destruct (build_step (graph, geoms) seg) as [[g1 m1]|] eqn:Hstep; simpl; [|done].
    intros Hloop. rewrite (IH _ _ Hloop), (build_step_edges _ _ _ _ _ Hstep).
    by rewrite <- app_assoc.
Qed.

Lemma segment_edges_id (seg : Element) (ke : Key * Edge) :
  ke ∈ segment_edges seg → edge_id ke = id seg.
Proof.
  unfold segment_edges.
  destruct (geometry seg) as [geom|]; [|by intros ?%elem_of_nil].
  destruct (head geom), (last geom); try (by intros ?%elem_of_nil).
  case_decide; [|by intros ?%elem_of_nil].
  rewrite !elem_of_cons. intros [->|[->|?%elem_of_nil]]; done.
Qed.

Lemma filter_none {A} (P : A → Prop) `{∀ x, Decision (P x)} (l : list A) :
  (∀ x, x ∈ l → ¬ P x) → filter P l = [].
Proof.
  induction l as [|x l IH]; intros Hl; [done|].
  rewrite filter_cons_False by (apply Hl; left).
  apply IH. intros y Hy. apply Hl. by right.
Qed.

Lemma filter_all {A} (P : A → Prop) `{∀ x, Decision (P x)} (l : list A) :
  (∀ x, x ∈ l → P x) → filter P l = l.
Proof.
  induction l as [|x l IH]; intros Hl; [done|].
  rewrite filter_cons_True by (apply Hl; left).
  f_equal. apply IH. intros y Hy. apply Hl. by right.
Qed.

Lemma filter_segments_edges (segments : list Element) (seg : Element) :
  NoDup (id <$> segments) → seg ∈ segments →
  filter (λ ke, edge_id ke = id seg) (segments ≫= segment_edges)
  = segment_edges seg.
Proof.
  induction segments as [|s rest IH]; [by intros _ ?%elem_of_nil|].
  rewrite fmap_cons, bind_cons, NoDup_cons, filter_app.
  intros [Hnotin Hnd] [->|Hin]%elem_of_cons.
  - rewrite filter_all by (intros; by apply segment_edges_id).
    rewrite filter_none; [by rewrite app_nil_r|].
    intros ke (s' & Hke & Hs')%list_elem_of_bind Heq.
    apply segment_edges_id in Hke. apply Hnotin.
    apply list_elem_of_fmap. exists s'. split; [congruence|done].
  - rewrite IH by done. rewrite filter_none; [done|].
    intros ke Hke%segment_edges_id Heq. apply Hnotin.
    apply list_elem_of_fmap. exists seg. split; [congruence|done].
Qed.

(** The store after the loop: a segment of fewer than two points, or with
    an id met nowhere in the list, leaves its entry as it was. *)
Lemma build_loop_geoms_other segments graph geoms graph' geoms' (seg_id : Z) :
  build_loop segments (graph, geoms) = Some (graph', geoms') →
  (∀ seg geom, seg ∈ segments → id seg = seg_id →
     geometry seg = Some geom → (length geom < 2)%nat) →
  geoms' !! seg_id = geoms !! seg_id.
Proof.
  revert graph geoms.
  induction segments as [|seg rest IH]; intros graph geoms; simpl.
  - by intros [= <- <-].
  - destruct (build_step (graph, geoms) seg) as [[g1 m1]|] eqn:Hstep; simpl; [|done].
    intros Hloop Hshort. rewrite (IH _ _ Hloop).
    2:{ intros s g Hs. apply Hshort. by right. }
    revert Hstep. unfold build_step.
    destruct (geometry seg) as [geom|] eqn:Hgeom; simpl; [|done].
    case_bool_decide as Hlen; [by intros [= <- <-]|].
    destruct (head geom); simpl; [|done]. destruct (last geom); simpl; [|done].
    intros [= <- <-]. apply lookup_insert_ne. intros Hid.
    apply Hlen. eapply Hshort; [by left|done|done].
Qed.

Lemma build_loop_geoms segments graph geoms graph' geoms' seg geom :
  build_loop segments (graph, geoms) = Some (graph', geoms') →
  NoDup (id <$> segments) → seg ∈ segments →
  geometry seg = Some geom → (2 ≤ length geom)%nat →
  geoms' !! id seg = Some geom.
Proof.
  revert graph geoms.
  induction segments as [|s rest IH]; intros graph geoms; simpl;
    [by intros _ _ ?%elem_of_nil|].
  destruct (build_step (graph, geoms) s) as [[g1 m1]|] eqn:Hstep; simpl; [|done].
  rewrite NoDup_cons. intros Hloop [Hnotin Hnd] [->|Hin]%elem_of_cons Hgeom Hlen.
  - rewrite (build_loop_geoms_other _ _ _ _ _ _ Hloop).
    2:{ intros s' g' Hs' Hid. exfalso. apply Hnotin.
        apply list_elem_of_fmap. eauto. }
    revert Hstep. unfold build_step. rewrite Hgeom. simpl.
    rewrite bool_decide_eq_false_2 by lia.
    destruct (head geom); simpl; [|done]. destruct (last geom); simpl; [|done].
    intros [= <- <-]. apply lookup_insert_eq.
  - eapply IH; eauto.
Qed.

Lemma head_last_is_Some {A} (l : list A) :
  l ≠ [] → is_Some (head l) ∧ is_Some (last l).
Proof.
  intros Hl. split; [by destruct l|].
  destruct (last l) eqn:Hlast; [eauto|]. by apply last_None in Hlast.
Qed.

(** Elements that carry a non-empty geometry never make the builder fail. *)
Lemma build_loop_is_Some segments st :
  Forall (λ seg, has_geometry seg = true) segments →
  is_Some (build_loop segments st).
Proof.
  revert st. induction segments as [|seg rest IH]; intros [graph geoms];
    simpl; [eauto|].
  rewrite Forall_cons. intros [Hseg Hrest]. unfold has_geometry in Hseg.
  destruct (geometry seg) as [geom|] eqn:Hgeom; [|done]. simpl.
  apply bool_decide_eq_true in Hseg.
  unfold build_step. rewrite Hgeom. simpl.
  case_bool_decide; simpl; [by apply IH|].
  destruct (head_last_is_Some geom) as [[p0 ->] [pn ->]];
    [intros ->; simpl in *; lia|]. simpl. by apply IH.
Qed.

Lemma load_osm_data_has_geometry (elements : list Element) :
  Forall (λ seg, has_geometry seg = true) (load_osm_data elements).
Proof.
  induction elements as [|elem rest IH]; simpl; [done|].
  destruct (keep_element elem) eqn:Hk; [|done].
  constructor; [|done]. unfold keep_element in Hk.
  by apply andb_true_iff in Hk as [_ ?].
Qed.

(** C4, amended.  On the filtered segments the builder succeeds, and the edges of
    the graph are, taken together, the edges of the segments: for each
    segment of at least two points one edge stored under the rounded start
    key, to the rounded end key, forward, and one stored under the rounded
    end key, to the rounded start key, reversed; for a segment of fewer
    points none.  So, the segment ids being pairwise distinct, for every
    segment: with at least two points, exactly those two edges of the graph
    carry its id; with fewer than two points, no edge carries its id and
    the geometry store has no entry for it. *)
Theorem build_track_graph_two_edges (elements : list Element) :
  ∃ graph segment_geoms,
    build_track_graph (load_osm_data elements) = Some (graph, segment_geoms)
    ∧ graph_edges graph ≡ₚ load_osm_data elements ≫= segment_edges
    ∧ (NoDup (id <$> load_osm_data elements) →
       ∀ seg, seg ∈ load_osm_data elements →
        ∃ geom p0 pn,
          geometry seg = Some geom ∧ head geom = Some p0 ∧ last geom = Some pn
          ∧ if decide (2 ≤ length geom)%nat then
              edges_of_id graph (id seg)
              ≡ₚ [(coord_key (lat p0) (lon p0),
                    (coord_key (lat pn) (lon pn), id seg, false));
                   (coord_key (lat pn) (lon pn),
                    (coord_key (lat p0) (lon p0), id seg, true))]
              ∧ segment_geoms !! id seg = Some geom
            else
              edges_of_id graph (id seg) = []
              ∧ segment_geoms !! id seg = None).
Proof.
  unfold build_track_graph.
  destruct (build_loop_is_Some (load_osm_data elements) ([], ∅)
              (load_osm_data_has_geometry elements)) as [[graph geoms] Hb].
  exists graph, geoms. split; [done|].
  split; [by rewrite (build_loop_edges _ _ _ _ _ Hb)|].
  intros Hnd seg Hseg.
  pose proof (load_osm_data_has_geometry elements) as Hall.
  rewrite Forall_forall in Hall. specialize (Hall seg Hseg).
  unfold has_geometry in Hall.
  destruct (geometry seg) as [geom|] eqn:Hgeom; [|done].
  apply bool_decide_eq_true in Hall.
  destruct (head_last_is_Some geom) as [[p0 Hp0] [pn Hpn]];
    [intros ->; simpl in *; lia|].
  exists geom, p0, pn. repeat split; try done.
  assert (Hedges : edges_of_id graph (id seg) ≡ₚ segment_edges seg).
  { unfold edges_of_id. rewrite (build_loop_edges _ _ _ _ _ Hb). simpl.
    by rewrite filter_segments_edges. }
  unfold segment_edges in Hedges. rewrite Hgeom, Hp0, Hpn in Hedges.
  case_decide as Hlen.
  - split; [done|]. eapply build_loop_geoms; eauto.
  - split; [by apply Permutation_nil_r in Hedges|].
    rewrite (build_loop_geoms_other _ _ _ _ _ _ Hb); [done|].
    intros s g Hs Hid Hg.
    assert (s = seg) as ->; [|rewrite Hgeom in Hg; simplify_eq; lia].
    clear -Hnd Hs Hseg Hid. revert Hnd Hs Hseg.
    generalize (load_osm_data elements). intros l Hnd Hs Hseg.
    apply list_elem_of_lookup in Hs as [i Hi].
    apply list_elem_of_lookup in Hseg as [j Hj].
    assert (i = j) as ->; [|congruence].
    eapply NoDup_lookup; [exact Hnd| |]; rewrite list_lookup_fmap.
    + rewrite Hi. done.
    + rewrite Hj. simpl. by rewrite Hid.
Qed.

(** C4, as stated for every segment list, fails.  In the list below two
    tracks of two points share id 1: four edges of the graph carry that id,
    not two.  A track of two points and a stub of one point share id 2: two
    edges carry the id of the stub and the store has an entry under it. *)
Lemma build_track_graph_two_edges_counterexample :
  build_track_graph (load_osm_data dup_elements) = Some (dup_graph, dup_geoms)
  ∧ mkElement 1 None (Some [pt 0; pt 10]) ∈ load_osm_data dup_elements
  ∧ length (edges_of_id dup_graph 1) = 4%nat
  ∧ mkElement 2 None (Some [pt 40]) ∈ load_osm_data dup_elements
  ∧ length (edges_of_id dup_graph 2) = 2%nat
  ∧ is_Some (dup_geoms !! 2)
  ∧ ¬ two_edges_per_segment dup_elements.
Proof.
  assert (Hbuild : build_track_graph (load_osm_data dup_elements)
                   = Some (dup_graph, dup_geoms)) by (vm_compute; reflexivity).
  assert (Hload : load_osm_data dup_elements = dup_elements)
    by (vm_compute; reflexivity).
  assert (Hlen : length (edges_of_id dup_graph 1) = 4%nat)
    by (vm_compute; reflexivity).
  split; [done|]. split; [rewrite Hload; by left|]. split; [done|].
  split; [rewrite Hload; do 3 right; by left|].
  split; [vm_compute; reflexivity|].
  split; [vm_compute; eexists; reflexivity|].
  intros Hclaim.
    specialize (Hclaim dup_graph dup_geoms Hbuild
                  (mkElement 1 None (Some [pt 0; pt 10])) [pt 0; pt 10]
                  (pt 0) (pt 10)).
    rewrite Hload in Hclaim. simpl in Hclaim.
    specialize (Hclaim ltac:(by left) eq_refl eq_refl eq_refl).
    apply Permutation_length in Hclaim. rewrite Hlen in Hclaim. done.
Qed.

(** On the chain the ids are distinct; it has tracks of two and of three
    points, stored in both directions, and a stub of one point. *)
Lemma build_track_graph_two_edges_witness :
  NoDup (id <$> load_osm_data chain_elements)
  ∧ ∃ graph segment_geoms,
    build_track_graph (load_osm_data chain_elements) = Some (graph, segment_geoms)
    ∧ graph_edges graph ≡ₚ load_osm_data chain_elements ≫= segment_edges
    ∧ (NoDup (id <$> load_osm_data chain_elements) →
       ∀ seg, seg ∈ load_osm_data chain_elements →
        ∃ geom p0 pn,
          geometry seg = Some geom ∧ head geom = Some p0 ∧ last geom = Some pn
          ∧ if decide (2 ≤ length geom)%nat then
              edges_of_id graph (id seg)
              ≡ₚ [(coord_key (lat p0) (lon p0),
                    (coord_key (lat pn) (lon pn), id seg, false));
                   (coord_key (lat pn) (lon pn),
                    (coord_key (lat p0) (lon p0), id seg, true))]
              ∧ segment_geoms !! id seg = Some geom
            else
              edges_of_id graph (id seg) = []
              ∧ segment_geoms !! id seg = None).
Proof.
  split.
  - assert (Hids : id <$> load_osm_data chain_elements = [1; 2; 3; 5])
      by (vm_compute; reflexivity).
    rewrite Hids. repeat constructor; set_solver.
  - apply (build_track_graph_two_edges chain_elements).
Defined.

(** ** The graph is a dictionary: no key occurs twice *)

Lemma graph_append_keys graph k e :
  graph_keys (graph_append graph k e)
  = if decide (k ∈ graph_keys graph) then graph_keys graph
    else graph_keys graph ++ [k].
Proof.
  unfold graph_keys. induction graph as [|[k' es] rest IH]; simpl; [done|].
  destruct (decide (k' = k)) as [->|Hne].
  - rewrite fmap_cons. simpl. rewrite decide_True by (by left). done.
  - rewrite fmap_cons, IH. simpl. destruct (decide (k ∈ rest.*1)) as [Hin|Hnot].
    + rewrite decide_True by (by right). done.
    + rewrite decide_False; [done|]. by intros [->|?]%elem_of_cons.
Qed.

Lemma graph_append_NoDup graph k e :
  NoDup (graph_keys graph) → NoDup (graph_keys (graph_append graph k e)).
Proof.
  intros Hnd. rewrite graph_append_keys. case_decide; [done|].
  apply NoDup_app. repeat split; [done| |apply NoDup_singleton].
  intros x Hx ->%list_elem_of_singleton. done.
Qed.

Lemma build_track_graph_keys_NoDup segments graph segment_geoms :
  build_track_graph segments = Some (graph, segment_geoms) →
  NoDup (graph_keys graph).
Proof.
  unfold build_track_graph.
  assert (Hgen : ∀ g m, NoDup (graph_keys g) →
            build_loop segments (g, m) = Some (graph, segment_geoms) →
            NoDup (graph_keys graph)).
  { induction segments as [|seg rest IH]; intros g m Hnd; simpl.
    - by intros [= <- <-].
    - destruct (build_step (g, m) seg) as [[g1 m1]|] eqn:Hstep; simpl; [|done].
      apply IH. revert Hstep. unfold build_step.
      destruct (geometry seg) as [geom|]; simpl; [|done].
      case_bool_decide; [by intros [= <- <-]|].
      destruct (head geom); simpl; [|done]. destruct (last geom); simpl; [|done].
      intros [= <- <-]. by do 2 apply graph_append_NoDup. }
  apply Hgen. constructor.
Qed.

(** ** PathAssembler *)

Lemma path_to_coordinates_from_app coords path1 path2 segment_geoms :
  path_to_coordinates_from coords (path1 ++ path2) segment_geoms
  = path_to_coordinates_from coords path1 segment_geoms
    ≫= λ coords', path_to_coordinates_from coords' path2 segment_geoms.
Proof.
  revert coords. induction path1 as [|[seg_id rev] rest IH]; intros coords;
    simpl; [done|].
  destruct (segment_geoms !! seg_id) as [geom|]; simpl; [|done]. apply IH.
Qed.

Lemma length_segment_points geom reversed_dir :
  length (segment_points geom reversed_dir) = length geom.
Proof.
  unfold segment_points. destruct reversed_dir;
    rewrite ?length_reverse, length_fmap; done.
Qed.







(** ** The example network *)

Lemma ex_build :
  build_track_graph (load_osm_data ex_elements) = Some (ex_graph, ex_geoms).
Proof. vm_compute. reflexivity. Qed.

(** ** NearestNodeFinder *)

(** The scan keeps the first node of least distance among those that beat
    the initial [best_dist], or the initial pair when none does. *)
Lemma nearest_scan_spec nodes la lo best_node best_dist rn rd :
  nearest_scan nodes la lo best_node best_dist = (rn, rd) →
  (rn = best_node ∧ rd = best_dist
   ∧ ∀ node, node ∈ nodes → ¬ dist_lt (dist_to la lo node) best_dist)
  ∨ (∃ i n,
       nodes !! i = Some n ∧ rn = Some n ∧ rd = Fin (dist_to la lo n)
       ∧ dist_lt (dist_to la lo n) best_dist
       ∧ (∀ node, node ∈ nodes → (dist_to la lo n <= dist_to la lo node)%R)
       ∧ (∀ j n', (j < i)%nat → nodes !! j = Some n' →
            (dist_to la lo n < dist_to la lo n')%R)).
Proof.
  revert best_node best_dist.
  induction nodes as [|node rest IH]; intros best_node best_dist; simpl.
  - intros [= <- <-]. left. repeat split. by intros node ?%elem_of_nil.
  - fold (dist_to la lo node).
    destruct (decide (dist_lt (dist_to la lo node) best_dist)) as [Hlt|Hge];
      intros Hscan; apply IH in Hscan as [(-> & -> & Hrest)|Hfound].
    + right. exists 0%nat, node. repeat split; try done.
      * intros n' [->|Hn']%elem_of_cons; [lra|].
        specialize (Hrest n' Hn'). simpl in Hrest. lra.
      * intros j n' Hj. lia.
    + destruct Hfound as (i & n & Hi & -> & -> & Hn & Hmin & Hfirst).
      simpl in Hn. right. exists (S i), n. repeat split; try done.
      * destruct best_dist; simpl in *; [lra|done].
      * intros n' [->|Hn']%elem_of_cons; [lra|by apply Hmin].
      * intros [|j] n' Hj; simpl; [intros [= <-]; lra|].
        apply Hfirst. lia.
    + left. repeat split.
      intros n' [->|Hn']%elem_of_cons; [done|by apply Hrest].
    + destruct Hfound as (i & n & Hi & -> & -> & Hn & Hmin & Hfirst).
      assert (Hnode : (dist_to la lo n < dist_to la lo node)%R).
      { destruct best_dist; simpl in *; [lra|done]. }
      right. exists (S i), n. repeat split; try done.
      * intros n' [->|Hn']%elem_of_cons; [lra|by apply Hmin].
      * intros [|j] n' Hj; simpl; [intros [= <-]; lra|].
        apply Hfirst. lia.
Qed.

(** What [find_nearest_node] returns: over no node, nothing and [Inf];
    otherwise the least distance [d], attained first at position [i] of the
    keys, with the node there unless [d] is beyond [max_dist_km]. *)
Lemma find_nearest_node_spec graph la lo max_dist_km :
  (graph_keys graph = []
   ∧ find_nearest_node graph la lo max_dist_km = (None, Inf))
  ∨ (∃ i n,
       graph_keys graph !! i = Some n
       ∧ (∀ node, node ∈ graph_keys graph →
            (dist_to la lo n <= dist_to la lo node)%R)
       ∧ (∀ j n', (j < i)%nat → graph_keys graph !! j = Some n' →
            (dist_to la lo n < dist_to la lo n')%R)
       ∧ find_nearest_node graph la lo max_dist_km
         = (if decide (dist_to la lo n > max_dist_km)%R then None else Some n,
            Fin (dist_to la lo n))).
Proof.
  unfold find_nearest_node.
  destruct (nearest_scan (graph_keys graph) la lo None Inf) as [rn rd] eqn:Hscan.
  apply nearest_scan_spec in Hscan as [(-> & -> & Hnone)|Hfound].
  - left. split; [|done].
    destruct (graph_keys graph) as [|node rest]; [done|].
    exfalso. apply (Hnone node); [by left|done].
  - destruct Hfound as (i & n & Hi & -> & -> & _ & Hmin & Hfirst).
    right. exists i, n. repeat split; try done.
    simpl. by destruct (decide (dist_to la lo n > max_dist_km)%R).
Qed.

(** C6.  [find_nearest_node] returns, as its distance, the minimum distance
    from the target to the graph nodes ([Inf] over no node); it returns no
    node if and only if that minimum exceeds [max_dist_km], and otherwise
    it returns a node of the graph that attains the minimum.  This holds for
    every radius, the default of 10 km included. *)
Theorem find_nearest_node_radius (graph : Graph) (la lo : Qc) (max_dist_km : R) :
  ∃ dmin,
    min_distance (graph_keys graph) la lo dmin
    ∧ (find_nearest_node graph la lo max_dist_km).2 = dmin
    ∧ ((find_nearest_node graph la lo max_dist_km).1 = None
       ↔ dist_gt dmin max_dist_km)
    ∧ (¬ dist_gt dmin max_dist_km →
       ∃ n, (find_nearest_node graph la lo max_dist_km).1 = Some n
            ∧ n ∈ graph_keys graph
            ∧ dmin = Fin (dist_to la lo n)).
Proof.
  destruct (find_nearest_node_spec graph la lo max_dist_km)
    as [[Hnil ->]|(i & n & Hi & Hmin & _ & ->)].
  - exists Inf. simpl. repeat split; try done.
  - exists (Fin (dist_to la lo n)). simpl.
    assert (Hin : n ∈ graph_keys graph) by (eapply list_elem_of_lookup_2; eauto).
    repeat split; eauto.
    + by destruct (decide (dist_to la lo n > max_dist_km)%R).
    + intros Hgt. by rewrite decide_True.
    + intros Hle. exists n. by rewrite decide_False.
Qed.

(** ** Real arithmetic of [haversine] *)

Lemma Q2R_Qc_minus (a b : Qc) : Q2R (a - b)%Qc = (Q2R a - Q2R b)%R.
Proof.
  rewrite <- Q2R_minus. apply Qeq_eqR. unfold Qcminus, Qcplus, Qcopp. simpl.
  rewrite !Qred_correct. reflexivity.
Qed.

Lemma asin_nonneg (x : R) : (0 <= x)%R → (0 <= asin x)%R.
Proof.
  intros Hx. pose proof PI_RGT_0 as Hpi. unfold asin.
  destruct (Rle_dec x (-1)); [lra|].
  destruct (Rle_dec 1 x); [lra|].
  assert (Hs : (0 < sqrt (1 - x²))%R).
  { apply sqrt_lt_R0. unfold Rsqr. nra. }
  assert (Hq : (0 <= x / sqrt (1 - x²))%R).
  { apply Rmult_le_pos; [done|]. left. by apply Rinv_0_lt_compat. }
  destruct Hq as [Hq|<-]; [|rewrite atan_0; lra].
  apply atan_increasing in Hq. rewrite atan_0 in Hq. lra.
Qed.

Lemma haversine_nonneg (lat1 lon1 lat2 lon2 : Qc) :
  (0 <= haversine lat1 lon1 lat2 lon2)%R.
Proof.
  unfold haversine.
  assert (0 <= asin (sqrt ((sin (radians (Q2R (lat2 - lat1)%Qc) / 2)) ^ 2
            + cos (radians (Q2R lat1)) * cos (radians (Q2R lat2))
              * (sin (radians (Q2R (lon2 - lon1)%Qc) / 2)) ^ 2)))%R
    by (apply asin_nonneg, sqrt_pos).
  lra.
Qed.

(** From the origin along the equator. *)
Lemma haversine_equator (lo2 : Qc) :
  haversine (Q2Qc 0) (Q2Qc 0) (Q2Qc 0) lo2
  = (6371 * (2 * asin (Rabs (sin (radians (Q2R lo2) / 2)))))%R.
Proof.
  unfold haversine. rewrite !Q2R_Qc_minus.
  assert (H0 : Q2R (Q2Qc 0) = 0%R) by (unfold Q2R; simpl; lra).
  rewrite H0. unfold radians.
  replace (((0 - 0) * (PI / 180) / 2))%R with 0%R by lra.
  replace (0 * (PI / 180))%R with 0%R by lra.
  rewrite sin_0, cos_0, Rminus_0_r.
  replace (0 ^ 2 + 1 * 1 * sin (Q2R lo2 * (PI / 180) / 2) ^ 2)%R
    with (Rsqr (sin (Q2R lo2 * (PI / 180) / 2))) by (unfold Rsqr; lra).
  by rewrite sqrt_Rsqr_abs.
Qed.

Lemma ex_east_eq : ex_east = (Q2Qc 0, centi 1).
Proof. unfold ex_east, coord_key. f_equal; apply Qc_is_canon; by vm_compute. Qed.

Lemma ex_west_eq : ex_west = (Q2Qc 0, centi (-1)).
Proof. unfold ex_west, coord_key. f_equal; apply Qc_is_canon; by vm_compute. Qed.

(** Both nodes of the example lie 6371 * PI / 18000 km from the origin,
    about 1.1 km. *)
Lemma ex_dist_east :
  dist_to (Q2Qc 0) (Q2Qc 0) ex_east = (6371 * (PI / 18000))%R.
Proof.
  rewrite ex_east_eq. unfold dist_to. simpl. rewrite haversine_equator.
  assert (Hq : Q2R (centi 1) = (1 / 100)%R) by (unfold Q2R; simpl; lra).
  rewrite Hq. unfold radians. pose proof PI_RGT_0. pose proof PI_4.
  assert (Hs : (0 < sin (1 / 100 * (PI / 180) / 2))%R)
    by (apply sin_gt_0; lra).
  rewrite Rabs_pos_eq by lra. rewrite asin_sin by lra. lra.
Qed.

Lemma ex_dist_west :
  dist_to (Q2Qc 0) (Q2Qc 0) ex_west = (6371 * (PI / 18000))%R.
Proof.
  rewrite ex_west_eq. unfold dist_to. simpl. rewrite haversine_equator.
  assert (Hq : Q2R (centi (-1)) = (- (1 / 100))%R) by (unfold Q2R; simpl; lra).
  rewrite Hq. unfold radians. pose proof PI_RGT_0. pose proof PI_4.
  replace (- (1 / 100) * (PI / 180) / 2)%R
    with (- (1 / 100 * (PI / 180) / 2))%R by lra.
  rewrite sin_neg, Rabs_Ropp.
  assert (Hs : (0 < sin (1 / 100 * (PI / 180) / 2))%R)
    by (apply sin_gt_0; lra).
  rewrite Rabs_pos_eq by lra. rewrite asin_sin by lra. lra.
Qed.

Lemma ex_dist_bound : (6371 * (PI / 18000) < 10)%R.
Proof. pose proof PI_4. lra. Qed.

(** On the example, from the origin with the default radius, the scan
    keeps the first key, the eastern node. *)
Lemma ex_find_nearest_node :
  find_nearest_node ex_graph (Q2Qc 0) (Q2Qc 0) default_max_dist_km
  = (Some ex_east, Fin (6371 * (PI / 18000))%R).
Proof.
  unfold find_nearest_node, ex_graph, graph_keys.
  cbn [fmap list_fmap fst nearest_scan].
  change (haversine (Q2Qc 0) (Q2Qc 0) ex_east.1 ex_east.2)
    with (dist_to (Q2Qc 0) (Q2Qc 0) ex_east).
  change (haversine (Q2Qc 0) (Q2Qc 0) ex_west.1 ex_west.2)
    with (dist_to (Q2Qc 0) (Q2Qc 0) ex_west).
  rewrite ex_dist_east, ex_dist_west.
  rewrite (decide_True (P := dist_lt _ Inf)) by done.
  rewrite decide_False by (simpl; lra).
  rewrite decide_False; [done|].
  unfold default_max_dist_km. pose proof ex_dist_bound. simpl. lra.
Qed.

(** C2, as stated, fails.  In the example the eastern and the western node
    are equally far from the origin and within the default radius; the
    western key is the lexicographically smaller one, and the function
    returns the eastern one, which comes first in the dictionary. *)
Lemma find_nearest_node_tie_counterexample :
  (find_nearest_node ex_graph (Q2Qc 0) (Q2Qc 0) default_max_dist_km).1
    = Some ex_east
  ∧ ex_west ∈ graph_keys ex_graph
  ∧ dist_to (Q2Qc 0) (Q2Qc 0) ex_west = dist_to (Q2Qc 0) (Q2Qc 0) ex_east
  ∧ key_lt ex_west ex_east
  ∧ ¬ lexicographic_tie_break ex_graph (Q2Qc 0) (Q2Qc 0) default_max_dist_km.
Proof.
  assert (Hin : ex_west ∈ graph_keys ex_graph).
  { unfold ex_graph, graph_keys. simpl. right. left. }
  assert (Hlt : key_lt ex_west ex_east).
  { rewrite ex_west_eq, ex_east_eq. right. split; [done|]. by vm_compute. }
  assert (Hd : dist_to (Q2Qc 0) (Q2Qc 0) ex_west
               = dist_to (Q2Qc 0) (Q2Qc 0) ex_east)
    by (by rewrite ex_dist_east, ex_dist_west).
  repeat split; try done.
  - by rewrite ex_find_nearest_node.
  - intros Htie. apply (Htie ex_east) in Hlt; try done.
    by rewrite ex_find_nearest_node.
Qed.

(** C2, amended.  The node [find_nearest_node] returns attains the minimum
    distance and is the first of the keys of the graph, in the order of the
    dictionary, to attain it: ties go to the key inserted first. *)
Theorem find_nearest_node_first_minimiser (graph : Graph) (la lo : Qc)
    (max_dist_km : R) (n : Key) :
  (find_nearest_node graph la lo max_dist_km).1 = Some n →
  (∀ node, node ∈ graph_keys graph →
     (dist_to la lo n <= dist_to la lo node)%R)
  ∧ ∃ i, graph_keys graph !! i = Some n
         ∧ ∀ j n', graph_keys graph !! j = Some n' →
             dist_to la lo n' = dist_to la lo n → (i ≤ j)%nat.
Proof.
  destruct (find_nearest_node_spec graph la lo max_dist_km)
    as [[_ ->]|(i & m & Hi & Hmin & Hfirst & ->)]; simpl; [done|].
  destruct (decide (dist_to la lo m > max_dist_km)%R); [done|].
  intros [= <-]. split; [done|]. exists i. split; [done|].
  intros j n' Hj Heq. destruct (decide (i ≤ j)%nat) as [|Hlt]; [done|].
  specialize (Hfirst j n'). rewrite Heq in Hfirst.
  exfalso. apply (Rlt_irrefl (dist_to la lo m)). apply Hfirst; [lia|done].
Qed.

Lemma find_nearest_node_first_minimiser_witness :
  (∀ node, node ∈ graph_keys ex_graph →
     (dist_to (Q2Qc 0) (Q2Qc 0) ex_east <= dist_to (Q2Qc 0) (Q2Qc 0) node)%R)
  ∧ ∃ i, graph_keys ex_graph !! i = Some ex_east
         ∧ ∀ j n', graph_keys ex_graph !! j = Some n' →
             dist_to (Q2Qc 0) (Q2Qc 0) n' = dist_to (Q2Qc 0) (Q2Qc 0) ex_east →
             (i ≤ j)%nat.
Proof.
  apply (find_nearest_node_first_minimiser ex_graph (Q2Qc 0) (Q2Qc 0)
           default_max_dist_km ex_east).
  rewrite ex_find_nearest_node. reflexivity.
Defined.

(** ** ShortestPathFinder *)

Lemma walk_snoc graph u v w seg_id reversed_dir path :
  walk graph u path v →
  (w, seg_id, reversed_dir) ∈ graph_get graph v →
  walk graph u (path ++ [(seg_id, reversed_dir)]) w.
Proof.
  induction 1 as [u|u v w' sid rd path Hedge Hwalk IH]; intros Hlast; simpl.
  - econstructor; [done|constructor].
  - econstructor; [done|auto].
Qed.

Lemma walk_snoc_inv graph u w path step :
  walk graph u (path ++ [step]) w →
  ∃ v, walk graph u path v ∧ (w, step.1, step.2) ∈ graph_get graph v.
Proof.
  revert u. induction path as [|x path IH]; intros u Hwalk; simpl in *.
  - inversion Hwalk as [|? v ? sid rd ? Hedge Hrest]; subst.
    inversion Hrest; subst. exists u. split; [constructor|done].
  - inversion Hwalk as [|? v ? sid rd ? Hedge Hrest]; subst.
    apply IH in Hrest as (v' & Hv' & Hlast). exists v'.
    split; [econstructor; eauto|done].
Qed.

Lemma walk_nil_inv graph u w : walk graph u [] w → u = w.
Proof. by inversion 1. Qed.

(** The inner loop when it returns. *)
Lemma scan_edges_Return edges end_node path visited queue new_path :
  scan_edges edges end_node path visited queue = Return new_path →
  ∃ seg_id reversed_dir,
    (end_node, seg_id, reversed_dir) ∈ edges
    ∧ new_path = path ++ [(seg_id, reversed_dir)].
Proof.
  revert visited queue.
  induction edges as [|[[v sid] rd] rest IH]; intros visited queue; simpl;
    [done|].
  destruct (decide (v ∈ visited)).
  - intros (sid' & rd' & Hin & ->)%IH. exists sid', rd'. split; [by right|done].
  - destruct (decide (v = end_node)) as [->|Hne].
    + intros [= <-]. exists sid, rd. split; [by left|done].
    + intros (sid' & rd' & Hin & ->)%IH. exists sid', rd'.
      split; [by right|done].
Qed.

(** The inner loop when it runs to its end. *)
Lemma scan_edges_Next edges end_node path visited queue visited' queue' :
  scan_edges edges end_node path visited queue = Next visited' queue' →
  ∃ new,
    queue' = queue ++ new
    ∧ visited' = visited ∪ list_to_set new.*1
    ∧ (end_node ∈ visited' → end_node ∈ visited)
    ∧ (∀ v seg_id reversed_dir, (v, seg_id, reversed_dir) ∈ edges → v ∈ visited')
    ∧ (∀ v p, (v, p) ∈ new →
         ∃ seg_id reversed_dir,
           (v, seg_id, reversed_dir) ∈ edges ∧ p = path ++ [(seg_id, reversed_dir)]).
Proof.
  revert visited queue.
  induction edges as [|[[v sid] rd] rest IH]; intros visited queue; simpl.
  - intros [= <- <-]. exists []. rewrite app_nil_r. simpl.
    repeat split; try set_solver.
  - destruct (decide (v ∈ visited)) as [Hv|Hv].
    + intros (new & -> & -> & Hend & Hall & Hnew)%IH. exists new.
      repeat split; try done.
      * intros v' sid' rd' [[= -> -> ->]|Hin]%elem_of_cons; [set_solver|eauto].
      * intros v' p Hin. destruct (Hnew v' p Hin) as (sid' & rd' & ? & ?).
        exists sid', rd'. split; [by right|done].
    + destruct (decide (v = end_node)) as [->|Hne]; [done|].
      intros (new & -> & -> & Hend & Hall & Hnew)%IH.
      exists ((v, path ++ [(sid, rd)]) :: new).
      repeat split.
      * by rewrite <- app_assoc.
      * simpl. set_solver.
      * set_solver.
      * intros v' sid' rd' [[= -> -> ->]|Hin]%elem_of_cons; [set_solver|eauto].
      * intros v' p [[= -> ->]|Hin]%elem_of_cons.
        -- exists sid, rd. split; [by left|done].
        -- destruct (Hnew v' p Hin) as (sid' & rd' & ? & ?).
           exists sid', rd'. split; [by right|done].
Qed.

(** Once every queued path is beyond [max_segments], nothing is returned. *)
Lemma bfs_loop_pruned fuel graph end_node max_segments queue visited path :
  (∀ u p, (u, p) ∈ queue → (max_segments < length p)%nat) →
  bfs_loop fuel graph end_node max_segments queue visited ≠ Some (Some path).
Proof.
  revert queue. induction fuel as [|fuel IH]; intros queue Hall; simpl; [done|].
  destruct queue as [|[u p] rest]; [done|].
  rewrite decide_True by (apply (Hall u p); by left).
  apply IH. intros u' p' Hin. apply (Hall u' p'). by right.
Qed.

Lemma bfs_inv_init graph start_node end_node :
  start_node ≠ end_node →
  bfs_inv graph start_node end_node 0 [(start_node, [])] [] {[start_node]} ∅.
Proof.
  intros Hne. split.
  - set_solver.
  - intros v Hv. right. set_solver.
  - set_solver.
  - intros u p [[= -> ->]|?%elem_of_nil]%elem_of_cons; [|done].
    split; [constructor|done].
  - by intros u p ?%elem_of_nil.
  - intros w q _ Hlen. lia.
  - intros w q Hwalk Hlen. destruct q; [|done].
    apply walk_nil_inv in Hwalk as <-. right. set_solver.
Qed.

(** When the paths of [d] steps are used up, those of [d + 1] steps take
    their place. *)
Lemma bfs_inv_level_up graph start_node end_node d q2 visited expanded :
  bfs_inv graph start_node end_node d [] q2 visited expanded →
  bfs_inv graph start_node end_node (S d) q2 [] visited expanded.
Proof.
  intros [Hend Hvis Hexp Hq1 Hq2 Hbelow Hlevel].
  assert (Hd : ∀ w q, walk graph start_node q w → length q = d → w ∈ expanded).
  { intros w q Hwalk Hlen.
    destruct (Hlevel w q Hwalk Hlen) as [|Hin]; [done|]. set_solver. }
  split; try done.
  - intros v Hv. rewrite app_nil_r. apply Hvis in Hv. by simpl in Hv.
  - by intros u p ?%elem_of_nil.
  - intros w q Hwalk Hlen.
    destruct (decide (length q = d)); [eauto|]. apply (Hbelow w q); [done|lia].
  - intros w q Hwalk Hlen.
    destruct q as [|x q _] using rev_ind; [done|].
    rewrite length_app in Hlen. simpl in Hlen.
    apply walk_snoc_inv in Hwalk as (v & Hv & Hedge).
    assert (v ∈ expanded) by (apply (Hd v q); [done|lia]).
    apply Hvis. eapply Hexp; eauto.
Qed.

(** The head of the queue can always be taken as a path of [d] steps. *)
Lemma bfs_inv_head graph start_node end_node d q1 q2 visited expanded u p rest :
  bfs_inv graph start_node end_node d q1 q2 visited expanded →
  q1 ++ q2 = (u, p) :: rest →
  ∃ d' q1' q2',
    rest = q1' ++ q2'
    ∧ bfs_inv graph start_node end_node d' ((u, p) :: q1') q2' visited expanded.
Proof.
  intros Hinv Hq. destruct q1 as [|x q1]; simpl in Hq.
  - subst q2. apply bfs_inv_level_up in Hinv.
    exists (S d), rest, []. by rewrite app_nil_r.
  - simplify_eq. by exists d, q1, q2.
Qed.

(** The inner loop returns a walk to the end node that no walk beats. *)
Lemma bfs_inv_return graph start_node end_node d q1 q2 visited expanded
    u p new_path :
  start_node ≠ end_node →
  bfs_inv graph start_node end_node d ((u, p) :: q1) q2 visited expanded →
  scan_edges (graph_get graph u) end_node p visited (q1 ++ q2) = Return new_path →
  walk graph start_node new_path end_node
  ∧ ∀ q, walk graph start_node q end_node → (length new_path ≤ length q)%nat.
Proof.
  intros Hne [Hend Hvis Hexp Hq1 Hq2 Hbelow Hlevel]
    (sid & rd & Hedge & ->)%scan_edges_Return.
  destruct (Hq1 u p) as [Hwalk Hlen]; [by left|].
  split; [by eapply walk_snoc|].
  intros q Hq. rewrite length_app. simpl.
  destruct (decide (length q ≤ d)%nat) as [Hle|]; [exfalso|lia].
  destruct q as [|x q _] using rev_ind.
  - by apply walk_nil_inv in Hq.
  - rewrite length_app in Hle. simpl in Hle.
    apply walk_snoc_inv in Hq as (v & Hv & Hlast).
    apply Hend. eapply Hexp; [|exact Hlast]. apply (Hbelow v q); [done|lia].
Qed.

(** The inner loop, run to its end, keeps the invariant: the node just
    scanned is expanded and the new paths have [d + 1] steps. *)
Lemma bfs_inv_step graph start_node end_node d q1 q2 visited expanded
    u p visited' queue' :
  bfs_inv graph start_node end_node d ((u, p) :: q1) q2 visited expanded →
  scan_edges (graph_get graph u) end_node p visited (q1 ++ q2)
    = Next visited' queue' →
  ∃ new,
    queue' = q1 ++ (q2 ++ new)
    ∧ bfs_inv graph start_node end_node d q1 (q2 ++ new) visited'
        ({[u]} ∪ expanded).
Proof.
  intros [Hend Hvis Hexp Hq1 Hq2 Hbelow Hlevel]
    (new & -> & -> & Hend' & Hall & Hnew)%scan_edges_Next.
  destruct (Hq1 u p) as [Hwalk Hlen]; [by left|].
  exists new. split; [by rewrite app_assoc|]. split.
  - intros Hin. by apply Hend, Hend'.
  - intros v [Hv|Hv]%elem_of_union.
    + apply Hvis in Hv as [Hv|Hv]; [set_solver|].
      simpl in Hv. apply elem_of_cons in Hv as [->|Hv]; [set_solver|].
      right. rewrite app_assoc, fmap_app. set_solver.
    + right. rewrite app_assoc, fmap_app. apply elem_of_app. right.
      by apply elem_of_list_to_set in Hv.
  - intros u' v sid rd [->%elem_of_singleton|Hu']%elem_of_union Hedge.
    + eauto.
    + apply elem_of_union. left. eauto.
  - intros u' p' Hin. apply (Hq1 u' p'). by right.
  - intros u' p' [Hin|Hin]%elem_of_app; [by apply Hq2|].
    destruct (Hnew u' p' Hin) as (sid & rd & Hedge & ->).
    split; [by eapply walk_snoc|]. rewrite length_app. simpl. lia.
  - intros w q Hw Hlt. apply elem_of_union. right. eauto.
  - intros w q Hw Hd. destruct (Hlevel w q Hw Hd) as [|Hin]; [set_solver|].
    simpl in Hin. apply elem_of_cons in Hin as [->|Hin]; [set_solver|by right].
Qed.

(** Whatever the fuel, a path returned from a state that satisfies the
    invariant is a walk from the start node to the end node with the fewest
    steps. *)
Lemma bfs_loop_min fuel graph start_node end_node max_segments :
  start_node ≠ end_node →
  ∀ d q1 q2 visited expanded new_path,
    bfs_inv graph start_node end_node d q1 q2 visited expanded →
    bfs_loop fuel graph end_node max_segments (q1 ++ q2) visited
      = Some (Some new_path) →
    walk graph start_node new_path end_node
    ∧ ∀ q, walk graph start_node q end_node → (length new_path ≤ length q)%nat.
Proof.
  intros Hne. induction fuel as [|fuel IH];
    intros d q1 q2 visited expanded new_path Hinv; simpl; [done|].
  destruct (q1 ++ q2) as [|[u p] rest] eqn:Hq; [done|].
  destruct (bfs_inv_head _ _ _ _ _ _ _ _ _ _ _ Hinv Hq)
    as (d' & q1' & q2' & -> & Hinv').
  destruct (decide (max_segments < length p)%nat) as [Hmax|Hmax].
  - intros Hloop. exfalso. revert Hloop. apply bfs_loop_pruned.
    destruct Hinv' as [_ _ _ Hq1 Hq2 _ _].
    destruct (Hq1 u p) as [_ Hlen]; [by left|].
    intros u' p' [Hin|Hin]%elem_of_app.
    + destruct (Hq1 u' p') as [_ ?]; [by right|]. lia.
    + destruct (Hq2 u' p' Hin) as [_ ?]. lia.
  - destruct (scan_edges (graph_get graph u) end_node p visited (q1' ++ q2'))
      as [r|visited' queue'] eqn:Hscan.
    + intros [= <-]. eapply bfs_inv_return; eauto.
    + destruct (bfs_inv_step _ _ _ _ _ _ _ _ _ _ _ _ Hinv' Hscan)
        as (new & -> & Hinv''). eauto.
Qed.

(** C1.  A path returned by [find_path_bfs] follows edges of the graph
    from the start node to the end node, and no sequence of edges of the
    graph from the start node to the end node has fewer steps. *)
Theorem find_path_bfs_min_hops (graph : Graph) (segment_geoms : GeometryStore)
    (start_node end_node : Key) (max_segments : nat) (path : Path) :
  find_path_bfs graph segment_geoms start_node end_node max_segments = Some path →
  walk graph start_node path end_node
  ∧ ∀ q, walk graph start_node q end_node → (length path ≤ length q)%nat.
Proof.
  unfold find_path_bfs, find_path_bfs_fuel.
  destruct (decide (start_node = end_node)) as [->|Hne].
  - intros [= <-]. split; [constructor|intros; simpl; lia].
  - destruct (bfs_loop (bfs_fuel graph) graph end_node max_segments
                [(start_node, [])] {[start_node]}) as [[r|]|] eqn:Hloop;
      try done.
    intros [= ->].
    eapply (bfs_loop_min (bfs_fuel graph) graph start_node end_node
              max_segments Hne 0 [(start_node, [])] []); [|exact Hloop].
    by apply bfs_inv_init.
Qed.

Lemma find_path_bfs_min_hops_witness :
  walk ex_graph ex_east [(7, false)] ex_west
  ∧ ∀ q, walk ex_graph ex_east q ex_west → (length [(7, false)] ≤ length q)%nat.
Proof.
  apply (find_path_bfs_min_hops ex_graph ex_geoms ex_east ex_west
           default_max_segments).
  vm_compute. reflexivity.
Defined.

(** *** The loop ends within [bfs_fuel] iterations *)

Lemma graph_get_targets graph u v seg_id reversed_dir :
  (v, seg_id, reversed_dir) ∈ graph_get graph u → v ∈ targets graph.
Proof.
  unfold targets. intros Hin. apply elem_of_list_to_set.
  apply list_elem_of_fmap. exists (v, seg_id). split; [done|].
  apply list_elem_of_fmap. exists (v, seg_id, reversed_dir). split; [done|].
  induction graph as [|[k es] rest IH]; simpl in *; [by apply elem_of_nil in Hin|].
  apply elem_of_app. destruct (decide (k = u)); auto.
Qed.

Lemma size_list_to_set_le (l : list Key) :
  (size (C := gset Key) (list_to_set l) ≤ length l)%nat.
Proof.
  induction l as [|x l IH]; simpl; [done|].
  rewrite size_union_alt, size_singleton.
  pose proof (subseteq_size (C := gset Key)
                (list_to_set l ∖ {[x]}) (list_to_set l)) as Hsub.
  specialize (Hsub ltac:(set_solver)). lia.
Qed.

(** Every node the inner loop queues leaves the set of unvisited targets. *)
Lemma scan_edges_measure (U : gset Key) edges end_node path visited queue
    visited' queue' :
  (∀ v seg_id reversed_dir, (v, seg_id, reversed_dir) ∈ edges → v ∈ U) →
  scan_edges edges end_node path visited queue = Next visited' queue' →
  (length queue' + size (U ∖ visited') = length queue + size (U ∖ visited))%nat.
Proof.
  revert visited queue.
  induction edges as [|[[v sid] rd] rest IH]; intros visited queue HU; simpl.
  - by intros [= <- <-].
  - assert (HU' : ∀ v sid rd, (v, sid, rd) ∈ rest → v ∈ U)
      by (intros; eapply HU; by right).
    destruct (decide (v ∈ visited)) as [Hv|Hv]; [by apply IH|].
    destruct (decide (v = end_node)); [done|].
    intros Hscan. rewrite (IH _ _ HU' Hscan), length_app. simpl.
    assert (Hin : v ∈ U ∖ visited)
      by (apply elem_of_difference; split; [eapply HU; by left|done]).
    assert (Heq : U ∖ ({[v]} ∪ visited) = (U ∖ visited) ∖ {[v]}) by set_solver.
    rewrite Heq, size_difference, size_singleton by set_solver.
    assert (size (U ∖ visited) ≠ 0)%nat; [|lia].
    apply size_non_empty_iff. set_solver.
Qed.

Lemma bfs_loop_terminates fuel graph end_node max_segments queue visited :
  (length queue + size (targets graph ∖ visited) < fuel)%nat →
  is_Some (bfs_loop fuel graph end_node max_segments queue visited).
Proof.
  revert queue visited.
  induction fuel as [|fuel IH]; intros queue visited Hfuel; simpl; [lia|].
  destruct queue as [|[u p] rest]; [eauto|]. simpl in Hfuel.
  destruct (decide (max_segments < length p)%nat); [apply IH; lia|].
  destruct (scan_edges (graph_get graph u) end_node p visited rest)
    as [r|visited' queue'] eqn:Hscan; [eauto|].
  assert (Hm := scan_edges_measure (targets graph) _ _ _ _ _ _ _
                  (graph_get_targets graph u) Hscan).
  apply IH. lia.
Qed.

Lemma bfs_loop_fuel_mono fuel fuel' graph end_node max_segments queue visited r :
  (fuel ≤ fuel')%nat →
  bfs_loop fuel graph end_node max_segments queue visited = Some r →
  bfs_loop fuel' graph end_node max_segments queue visited = Some r.
Proof.
  revert fuel' queue visited.
  induction fuel as [|fuel IH]; intros fuel' queue visited Hle; simpl; [done|].
  destruct fuel' as [|fuel']; [lia|]. simpl.
  destruct queue as [|[u p] rest]; [done|].
  destruct (decide (max_segments < length p)%nat); [apply IH; lia|].
  destruct (scan_edges (graph_get graph u) end_node p visited rest); [done|].
  apply IH. lia.
Qed.

(** [bfs_fuel graph] iterations are enough: with that much fuel or more the
    loop always comes to a result, and it is the result of [find_path_bfs]. *)
Lemma find_path_bfs_fuel_enough fuel graph segment_geoms start_node end_node
    max_segments :
  (bfs_fuel graph ≤ fuel)%nat →
  find_path_bfs_fuel fuel graph segment_geoms start_node end_node max_segments
  = Some (find_path_bfs graph segment_geoms start_node end_node max_segments).
Proof.
  intros Hfuel. unfold find_path_bfs, find_path_bfs_fuel.
  destruct (decide (start_node = end_node)); [done|].
  destruct (bfs_loop_terminates (bfs_fuel graph) graph end_node max_segments
              [(start_node, [])] {[start_node]}) as [r Hr].
  { unfold bfs_fuel, targets. simpl.
    pose proof (size_list_to_set_le (concat graph.*2).*1.*1) as Hsize.
    rewrite !length_fmap in Hsize.
    pose proof (subseteq_size (C := gset Key)
      (list_to_set (concat graph.*2).*1.*1 ∖ {[start_node]})
      (list_to_set (concat graph.*2).*1.*1)) as Hsub.
    specialize (Hsub ltac:(set_solver)). lia. }
  rewrite Hr. simpl. by apply (bfs_loop_fuel_mono (bfs_fuel graph)).
Qed.

(** ** Segment ids of the graph and the geometry store *)

Lemma find_path_bfs_walk graph segment_geoms start_node end_node max_segments path :
  find_path_bfs graph segment_geoms start_node end_node max_segments = Some path →
  walk graph start_node path end_node.
Proof.
  unfold find_path_bfs, find_path_bfs_fuel.
  destruct (decide (start_node = end_node)) as [->|Hne].
  - intros [= <-]. constructor.
  - destruct (bfs_loop (bfs_fuel graph) graph end_node max_segments
                [(start_node, [])] {[start_node]}) as [[r|]|] eqn:Hloop;
      try done.
    intros [= ->].
    eapply (bfs_loop_min (bfs_fuel graph) graph start_node end_node
              max_segments Hne 0 [(start_node, [])] []); [|exact Hloop].
    by apply bfs_inv_init.
Qed.

Lemma walk_edges graph u path w step :
  walk graph u path w → step ∈ path →
  ∃ ke, ke ∈ graph_edges graph ∧ edge_id ke = step.1.
Proof.
  induction 1 as [u|u v w sid rd path Hedge Hwalk IH]; [by intros ?%elem_of_nil|].
  intros [->|Hin]%elem_of_cons; [|auto].
  exists (u, (v, sid, rd)). split; [by apply graph_get_edges|done].
Qed.

Lemma segment_edges_geometry seg ke :
  ke ∈ segment_edges seg →
  ∃ geom, geometry seg = Some geom ∧ (2 ≤ length geom)%nat.
Proof.
  unfold segment_edges. destruct (geometry seg) as [geom|];
    [|by intros ?%elem_of_nil].
  destruct (head geom), (last geom); try (by intros ?%elem_of_nil).
  case_decide; [eauto|by intros ?%elem_of_nil].
Qed.

(** The loop only adds entries to the store, one for every segment of at
    least two points. *)
Lemma build_loop_dom segments graph geoms graph' geoms' seg_id :
  build_loop segments (graph, geoms) = Some (graph', geoms') →
  is_Some (geoms !! seg_id)
  ∨ (∃ seg geom, seg ∈ segments ∧ id seg = seg_id
       ∧ geometry seg = Some geom ∧ (2 ≤ length geom)%nat) →
  is_Some (geoms' !! seg_id).
Proof.
  revert graph geoms.
  induction segments as [|seg rest IH]; intros graph geoms; simpl.
  - intros [= <- <-] [?|(s & g & ?%elem_of_nil & _)]; done.
  - destruct (build_step (graph, geoms) seg) as [[g1 m1]|] eqn:Hstep; simpl; [|done].
    intros Hloop Hsrc. apply (IH _ _ Hloop).
    revert Hstep. unfold build_step.
    destruct (geometry seg) as [geom|] eqn:Hgeom; simpl; [|done].
    case_bool_decide as Hlen.
    + intros [= <- <-]. destruct Hsrc as [?|(s & g & Hs & Hid & Hg & Hl)]; [by left|].
      apply elem_of_cons in Hs as [->|Hs]; [|right; by exists s, g].
      rewrite Hgeom in Hg. simplify_eq. lia.
    + destruct (head geom); simpl; [|done]. destruct (last geom); simpl; [|done].
      intros [= <- <-]. destruct (decide (id seg = seg_id)) as [<-|Hne].
      * left. rewrite lookup_insert_eq. eauto.
      * rewrite lookup_insert_ne by done.
        destruct Hsrc as [?|(s & g & Hs & Hid & Hg & Hl)]; [by left|].
        apply elem_of_cons in Hs as [->|Hs]; [done|right; by exists s, g].
Qed.

Lemma path_to_coordinates_from_is_Some coords path (segment_geoms : GeometryStore) :
  (∀ step, step ∈ path → is_Some (segment_geoms !! step.1)) →
  is_Some (path_to_coordinates_from coords path segment_geoms).
Proof.
  revert coords. induction path as [|[seg_id rd] rest IH]; intros coords Hdom;
    simpl; [eauto|].
  destruct (Hdom (seg_id, rd)) as [geom Hgeom]; [by left|].
  simpl in Hgeom. rewrite Hgeom. simpl.
  apply IH. intros step Hstep. apply Hdom. by right.
Qed.

(** C10.  When [build_track_graph] returns a graph and a geometry store,
    the segment id of every edge of the graph is a key of the store; so for
    every path [find_path_bfs] returns over that graph, each segment id of
    the path has its geometry in the store and [path_to_coordinates]
    returns a coordinate list, its lookups never failing. *)
Theorem build_track_graph_geoms_closed (segments : list Element) (graph : Graph)
    (segment_geoms : GeometryStore) :
  build_track_graph segments = Some (graph, segment_geoms) →
  (∀ ke, ke ∈ graph_edges graph → is_Some (segment_geoms !! edge_id ke))
  ∧ ∀ start_node end_node max_segments path,
      find_path_bfs graph segment_geoms start_node end_node max_segments
        = Some path →
      (∀ step, step ∈ path → is_Some (segment_geoms !! step.1))
      ∧ is_Some (path_to_coordinates path segment_geoms).
Proof.
  unfold build_track_graph. intros Hbuild.
  assert (Hedges : ∀ ke, ke ∈ graph_edges graph →
                         is_Some (segment_geoms !! edge_id ke)).
  { intros ke Hke. rewrite (build_loop_edges _ _ _ _ _ Hbuild) in Hke.
    simpl in Hke. apply list_elem_of_bind in Hke as (seg & Hke & Hseg).
    apply (build_loop_dom _ _ _ _ _ _ Hbuild). right.
    destruct (segment_edges_geometry _ _ Hke) as (geom & Hgeom & Hlen).
    exists seg, geom. by rewrite (segment_edges_id _ _ Hke). }
  split; [done|]. intros s e m path Hpath%find_path_bfs_walk.
  assert (Hdom : ∀ step, step ∈ path → is_Some (segment_geoms !! step.1)).
  { intros step Hstep.
    destruct (walk_edges _ _ _ _ _ Hpath Hstep) as (ke & Hke & <-). auto. }
  split; [done|]. by apply path_to_coordinates_from_is_Some.
Qed.

Lemma build_track_graph_geoms_closed_witness :
  (∀ ke, ke ∈ graph_edges ex_graph → is_Some (ex_geoms !! edge_id ke))
  ∧ ∀ start_node end_node max_segments path,
      find_path_bfs ex_graph ex_geoms start_node end_node max_segments
        = Some path →
      (∀ step, step ∈ path → is_Some (ex_geoms !! step.1))
      ∧ is_Some (path_to_coordinates path ex_geoms).
Proof.
  apply (build_track_graph_geoms_closed (load_osm_data ex_elements)).
  vm_compute. reflexivity.
Defined.

(** ** RouteShapeGenerator *)

(** C3.  When the two terminal stations of a route resolve to the same
    graph node, [find_path_bfs] returns the empty path, whatever the fuel;
    the iteration of [generate_shapes] then adds no shape and prints the
    no-path error; and the code that follows the search does for the empty
    path exactly what it does for [None], the result of a failed search. *)
Theorem same_node_route_no_shape (STATIONS : gmap string Station)
    (graph : Graph) (segment_geoms : GeometryStore) (route_id : string)
    (route_info : RouteInfo) (start_station end_station : Station)
    (node : Key) (start_dist end_dist : Dist) (shapes : list Shape) :
  STATIONS !! (terminals route_info).1 = Some start_station →
  STATIONS !! (terminals route_info).2 = Some end_station →
  find_nearest_node graph (station_lat start_station)
    (station_lon start_station) default_max_dist_km = (Some node, start_dist) →
  find_nearest_node graph (station_lat end_station)
    (station_lon end_station) default_max_dist_km = (Some node, end_dist) →
  find_path_bfs graph segment_geoms node node default_max_segments = Some []
  ∧ (∀ fuel, find_path_bfs_fuel fuel graph segment_geoms node node
               default_max_segments = Some (Some []))
  ∧ route_iteration STATIONS graph segment_geoms (route_id, route_info) shapes
    = Some (shapes,
            [MsgRoute (name route_info);
             MsgStart (terminals route_info).1 (Some node) start_dist;
             MsgEnd (terminals route_info).2 (Some node) end_dist;
             MsgNoPath])
  ∧ route_after_path route_id (Some []) segment_geoms shapes
    = route_after_path route_id None segment_geoms shapes.
Proof.
  intros Hstart Hend Hnode1 Hnode2.
  assert (Hfuel : ∀ fuel, find_path_bfs_fuel fuel graph segment_geoms node node
                            default_max_segments = Some (Some [])).
  { intros fuel. unfold find_path_bfs_fuel. by rewrite decide_True. }
  assert (Hpath : find_path_bfs graph segment_geoms node node
                    default_max_segments = Some []).
  { unfold find_path_bfs. by rewrite Hfuel. }
  repeat split; try done.
  unfold route_iteration. rewrite Hstart, Hend, Hnode1, Hnode2, Hpath. done.
Qed.

Lemma same_node_route_no_shape_witness :
  find_path_bfs ex_graph ex_geoms ex_east ex_east default_max_segments = Some []
  ∧ (∀ fuel, find_path_bfs_fuel fuel ex_graph ex_geoms ex_east ex_east
               default_max_segments = Some (Some []))
  ∧ route_iteration ex_stations ex_graph ex_geoms ex_route []
    = Some ([],
            [MsgRoute "A-B";
             MsgStart "A" (Some ex_east) (Fin (6371 * (PI / 18000))%R);
             MsgEnd "B" (Some ex_east) (Fin (6371 * (PI / 18000))%R);
             MsgNoPath])
  ∧ route_after_path "A_B" (Some []) ex_geoms []
    = route_after_path "A_B" None ex_geoms [].
Proof.
  apply (same_node_route_no_shape ex_stations ex_graph ex_geoms "A_B"
           (mkRoute "A-B" ("A", "B"))
           (mkStation (Q2Qc 0) (Q2Qc 0) "Origin A")
           (mkStation (Q2Qc 0) (Q2Qc 0) "Origin B")
           ex_east (Fin (6371 * (PI / 18000))%R) (Fin (6371 * (PI / 18000))%R) []).
  - reflexivity.
  - reflexivity.
  - exact ex_find_nearest_node.
  - exact ex_find_nearest_node.
Defined.

(** ** The distances written to [shapes.txt] *)

Lemma advance_le coords i la lo dist_traveled :
  (dist_traveled <= advance coords i la lo dist_traveled)%R.
Proof.
  unfold advance. destruct (decide (0 < i)%nat); [|lra].
  destruct (coords !! (i - 1)%nat) as [prev|]; [|lra].
  pose proof (haversine_nonneg prev.1 prev.2 la lo). lra.
Qed.

(** Every row written from index [i] on carries its index plus one and a
    distance no smaller than the one the loop started from. *)
Lemma shape_rows_from_lookup shape_id coords i dist_traveled todo k row :
  shape_rows_from shape_id coords i dist_traveled todo !! k = Some row →
  shape_pt_sequence row = (i + k + 1)%nat
  ∧ (dist_traveled <= shape_dist_traveled row)%R.
Proof.
  revert i dist_traveled k.
  induction todo as [|[la lo] rest IH]; intros i d k; simpl; [done|].
  pose proof (advance_le coords i la lo d) as Hadv.
  destruct k as [|k]; simpl.
  - intros [= <-]. simpl. split; [lia|done].
  - intros [Hseq Hd]%IH. split; [lia|lra].
Qed.

Lemma shape_rows_from_mono shape_id coords i dist_traveled todo k1 k2 row1 row2 :
  (k1 ≤ k2)%nat →
  shape_rows_from shape_id coords i dist_traveled todo !! k1 = Some row1 →
  shape_rows_from shape_id coords i dist_traveled todo !! k2 = Some row2 →
  (shape_dist_traveled row1 <= shape_dist_traveled row2)%R.
Proof.
  revert i dist_traveled k1 k2 row1 row2.
  induction todo as [|[la lo] rest IH]; intros i d k1 k2 row1 row2 Hle; simpl;
    [done|].
  destruct k1 as [|k1]; simpl.
  - intros [= <-]. destruct k2 as [|k2]; simpl.
    + intros [= <-]. simpl. lra.
    + intros [_ Hd]%shape_rows_from_lookup. simpl. done.
  - destruct k2 as [|k2]; [lia|]. simpl. apply IH. lia.
Qed.

Lemma Rround_half_even_bounds (x : R) :
  Zfloor x ≤ Rround_half_even x ≤ Zfloor x + 1.
Proof.
  unfold Rround_half_even. repeat case_decide; try lia.
  destruct (Z.even (Zfloor x)); lia.
Qed.

(** Rounding to one decimal keeps the order. *)
Lemma format_1f_mono (x y : R) : (x <= y)%R → format_1f x ≤ format_1f y.
Proof.
  intros Hxy. unfold format_1f.
  assert (Hle : (x * 10 <= y * 10)%R) by lra.
  revert Hle. generalize (x * 10)%R (y * 10)%R. clear. intros x y Hxy.
  pose proof (Zfloor_bound x) as Hx. pose proof (Zfloor_bound y) as Hy.
  assert (Hq : Zfloor x ≤ Zfloor y) by (apply Zfloor_lub; lra).
  destruct (decide (Zfloor x = Zfloor y)) as [Heq|Hne].
  - unfold Rround_half_even. rewrite <- Heq.
    repeat case_decide; try lia; try lra; destruct (Z.even (Zfloor x)); lia.
  - pose proof (Rround_half_even_bounds x). pose proof (Rround_half_even_bounds y).
    lia.
Qed.

Lemma format_1f_0 : format_1f 0 = 0.
Proof.
  unfold format_1f, Rround_half_even.
  assert (Hz : Zfloor (0 * 10) = 0) by (apply Zfloor_eq; simpl; lra).
  rewrite Hz. rewrite decide_True by (simpl; lra). done.
Qed.

(** C8.  In the rows written for a shape there is one row per point; the
    first row has [shape_dist_traveled] exactly 0; the row at position [i]
    has [shape_pt_sequence] [i + 1]; and along the rows
    [shape_dist_traveled] never decreases.  The same holds of the decimals
    written with one digit: the first is 0.0 and they never decrease. *)
Theorem shape_rows_distance (shape : Shape) :
  length (shape_rows shape) = length shape.2
  ∧ (∀ row, head (shape_rows shape) = Some row →
       shape_dist_traveled row = 0%R
       ∧ format_1f (shape_dist_traveled row) = 0)
  ∧ (∀ i row, shape_rows shape !! i = Some row → shape_pt_sequence row = S i)
  ∧ (∀ i j row_i row_j, (i ≤ j)%nat →
       shape_rows shape !! i = Some row_i → shape_rows shape !! j = Some row_j →
       (shape_dist_traveled row_i <= shape_dist_traveled row_j)%R
       ∧ format_1f (shape_dist_traveled row_i)
         ≤ format_1f (shape_dist_traveled row_j)).
Proof.
  destruct shape as [shape_id coords]. unfold shape_rows. simpl.
  repeat split.
  - generalize 0%nat at 1, 0%R, coords at 1. intros i d full.
    revert i d. induction coords as [|[la lo] rest IH]; intros i d; simpl;
      [done|]. by rewrite IH.
  - destruct coords as [|[la lo] rest]; simpl in *; [done|]. by simplify_eq.
  - destruct coords as [|[la lo] rest]; simpl in *; [done|]. simplify_eq.
    simpl. apply format_1f_0.
  - intros i row [Hseq _]%shape_rows_from_lookup. lia.
  - eapply shape_rows_from_mono; eauto.
  - apply format_1f_mono. eapply shape_rows_from_mono; eauto.
Qed.

(** ** The dictionaries are only read *)

Lemma heap_bfs_loop fuel end_node max_segments queue visited σ :
  Heap.bfs_loop fuel end_node max_segments queue visited σ
  = (Heap.Ok (bfs_loop fuel (Heap.graph σ) end_node max_segments queue visited), σ).
Proof.
  revert queue visited.
  induction fuel as [|fuel IH]; intros queue visited; simpl; [done|].
  destruct queue as [|[current path] rest]; [done|].
  destruct (decide (max_segments < length path)%nat); [apply IH|].
  unfold Heap.bind, Heap.get. simpl.
  destruct (scan_edges (graph_get (Heap.graph σ) current) end_node path
              visited rest); [done|apply IH].
Qed.

Lemma heap_path_to_coordinates_from coords path σ :
  Heap.path_to_coordinates_from coords path σ
  = (Heap.of_option
       (path_to_coordinates_from coords path (Heap.segment_geoms σ)), σ).
Proof.
  revert coords. induction path as [|[seg_id rd] rest IH]; intros coords;
    simpl; [done|].
  unfold Heap.bind, Heap.geoms_getitem.
  destruct (Heap.segment_geoms σ !! seg_id) as [geom|]; simpl; [apply IH|done].
Qed.

Lemma heap_find_nearest_node la lo max_dist_km σ :
  Heap.find_nearest_node la lo max_dist_km σ
  = (Heap.Ok (find_nearest_node (Heap.graph σ) la lo max_dist_km), σ).
Proof.
  unfold Heap.find_nearest_node, find_nearest_node, Heap.bind, Heap.keys.
  destruct (nearest_scan (graph_keys (Heap.graph σ)) la lo None Inf)
    as [best_node best_dist].
  by destruct (decide (dist_gt best_dist max_dist_km)).
Qed.

(** The builder, as a program on the store, leaves in it the graph and the
    geometry store that [build_track_graph] returns. *)
Lemma heap_build_loop segments graph geoms graph' geoms' :
  build_loop segments (graph, geoms) = Some (graph', geoms') →
  Heap.build_loop segments (Heap.mkStore graph geoms)
  = (Heap.Ok tt, Heap.mkStore graph' geoms').
Proof.
  revert graph geoms.
  induction segments as [|seg rest IH]; intros graph geoms; simpl.
  - by intros [= <- <-].
  - destruct (build_step (graph, geoms) seg) as [[g1 m1]|] eqn:Hstep; simpl; [|done].
    intros Hloop. unfold Heap.bind at 1.
    assert (Hs : Heap.build_step seg (Heap.mkStore graph geoms)
                 = (Heap.Ok tt, Heap.mkStore g1 m1)).
    { revert Hstep. unfold build_step, Heap.build_step.
      destruct (geometry seg) as [geom|]; simpl; [|done].
      case_bool_decide; [by intros [= <- <-]|].
      destruct (head geom); simpl; [|done]. destruct (last geom); simpl; [|done].
      by intros [= <- <-]. }
    rewrite Hs. by apply IH.
Qed.

(** C9.  Take the graph and the geometry store that [build_track_graph]
    leaves in the store.  Whatever their arguments, [find_nearest_node],
    [find_path_bfs] (for every amount of fuel) and [path_to_coordinates]
    end with the store exactly as they found it, no key added and no value
    changed, also when [path_to_coordinates] stops on a missing key; and
    they return what the functions on values return. *)
Theorem readers_leave_store_unchanged (segments : list Element) (graph : Graph)
    (segment_geoms : GeometryStore) :
  build_track_graph segments = Some (graph, segment_geoms) →
  Heap.build_track_graph segments
    = (Heap.Ok tt, Heap.mkStore graph segment_geoms)
  ∧ (∀ la lo max_dist_km,
       Heap.find_nearest_node la lo max_dist_km (Heap.mkStore graph segment_geoms)
       = (Heap.Ok (find_nearest_node graph la lo max_dist_km),
          Heap.mkStore graph segment_geoms))
  ∧ (∀ fuel start_node end_node max_segments,
       Heap.find_path_bfs_fuel fuel start_node end_node max_segments
         (Heap.mkStore graph segment_geoms)
       = (Heap.Ok (find_path_bfs_fuel fuel graph segment_geoms start_node
                     end_node max_segments),
          Heap.mkStore graph segment_geoms))
  ∧ (∀ path,
       Heap.path_to_coordinates path (Heap.mkStore graph segment_geoms)
       = (Heap.of_option (path_to_coordinates path segment_geoms),
          Heap.mkStore graph segment_geoms)).
Proof.
  intros Hbuild. repeat split.
  - by apply heap_build_loop.
  - intros. apply heap_find_nearest_node.
  - intros fuel s e m. unfold Heap.find_path_bfs_fuel, find_path_bfs_fuel.
    destruct (decide (s = e)); [done|]. apply heap_bfs_loop.
  - intros path. apply heap_path_to_coordinates_from.
Qed.

Lemma readers_leave_store_unchanged_witness :
  Heap.build_track_graph (load_osm_data ex_elements)
    = (Heap.Ok tt, Heap.mkStore ex_graph ex_geoms)
  ∧ (∀ la lo max_dist_km,
       Heap.find_nearest_node la lo max_dist_km (Heap.mkStore ex_graph ex_geoms)
       = (Heap.Ok (find_nearest_node ex_graph la lo max_dist_km),
          Heap.mkStore ex_graph ex_geoms))
  ∧ (∀ fuel start_node end_node max_segments,
       Heap.find_path_bfs_fuel fuel start_node end_node max_segments
         (Heap.mkStore ex_graph ex_geoms)
       = (Heap.Ok (find_path_bfs_fuel fuel ex_graph ex_geoms start_node
                     end_node max_segments),
          Heap.mkStore ex_graph ex_geoms))
  ∧ (∀ path,
       Heap.path_to_coordinates path (Heap.mkStore ex_graph ex_geoms)
       = (Heap.of_option (path_to_coordinates path ex_geoms),
          Heap.mkStore ex_graph ex_geoms)).
Proof.
  apply (readers_leave_store_unchanged (load_osm_data ex_elements)
           ex_graph ex_geoms).
  exact ex_build.
Defined.

(** ** The functions at work on the chain *)

Example round_to_4_digits :
  this (round (Q2Qc (123456789 # 100000000)) 4) = (6173 # 5000)%Q
  ∧ this (round (Q2Qc (-(125 # 100000))) 4) = (-(3) # 2500)%Q
  ∧ this (round (Q2Qc (135 # 100000)) 4) = (7 # 5000)%Q.
Proof. by vm_compute. Qed.

Example chain_filtered :
  id <$> load_osm_data chain_elements = [1; 2; 3; 5].
Proof. by vm_compute. Qed.

Example chain_keys :
  graph_keys chain_graph = [node 0; node 10; node 20; node 30]
  ∧ dom chain_geoms = {[1; 2; 3]}.
Proof. by vm_compute. Qed.

Example chain_path :
  find_path_bfs chain_graph chain_geoms (node 0) (node 30) default_max_segments
  = Some [(1, false); (2, true); (3, false)].
Proof. by vm_compute. Qed.

Example chain_path_back :
  find_path_bfs chain_graph chain_geoms (node 30) (node 0) default_max_segments
  = Some [(3, true); (2, false); (1, true)].
Proof. by vm_compute. Qed.

Example chain_no_path :
  find_path_bfs chain_graph chain_geoms (node 0) (node 40) default_max_segments
  = None
  ∧ find_path_bfs chain_graph chain_geoms (node 0) (node 30) 1 = None
  ∧ find_path_bfs chain_graph chain_geoms (node 0) (node 30) 2
    = Some [(1, false); (2, true); (3, false)].
Proof. by vm_compute. Qed.

Example chain_coordinates :
  ((λ coords : list Coord, plain <$> coords) <$>
     path_to_coordinates [(1, false); (2, true); (3, false)] chain_geoms)
  = Some [(0, 0); (0, 1 # 200); (0, 1 # 100); (0, 1 # 50); (0, 3 # 100)]%Q
  ∧ junction_duplicates [(1, false); (2, true); (3, false)] chain_geoms = 2%nat
  ∧ total_points [(1, false); (2, true); (3, false)] chain_geoms = 7%nat.
Proof. by vm_compute. Qed.

Example chain_missing_geometry :
  path_to_coordinates [(1, false); (4, false)] chain_geoms = None.
Proof. by vm_compute. Qed.

(** * Further properties of the code *)

(** ** ShortestPathFinder: bound, empty path, completeness *)

Lemma bfs_loop_bound fuel graph end_node max_segments queue visited path :
  bfs_loop fuel graph end_node max_segments queue visited = Some (Some path) →
  path ≠ [] ∧ (length path ≤ max_segments + 1)%nat.
Proof.
  revert queue visited.
  induction fuel as [|fuel IH]; intros queue visited; simpl; [done|].
  destruct queue as [|[u p] rest]; [done|].
  destruct (decide (max_segments < length p)%nat) as [|Hmax]; [apply IH|].
  destruct (scan_edges (graph_get graph u) end_node p visited rest)
    as [r|visited' queue'] eqn:Hscan; [|apply IH].
  intros [= <-]. apply scan_edges_Return in Hscan as (sid & rd & _ & ->).
  split; [by destruct p|]. rewrite length_app. simpl. lia.
Qed.

(** X1.  A path returned by [find_path_bfs] has at most [max_segments + 1]
    steps: the loop refuses to extend a path of more than [max_segments]
    steps, so a path of exactly [max_segments] steps is still extended by
    one. *)
Theorem find_path_bfs_bound (graph : Graph) (segment_geoms : GeometryStore)
    (start_node end_node : Key) (max_segments : nat) (path : Path) :
  find_path_bfs graph segment_geoms start_node end_node max_segments = Some path →
  (length path ≤ max_segments + 1)%nat.
Proof.
  unfold find_path_bfs, find_path_bfs_fuel.
  destruct (decide (start_node = end_node)); [intros [= <-]; simpl; lia|].
  destruct (bfs_loop (bfs_fuel graph) graph end_node max_segments
              [(start_node, [])] {[start_node]}) as [[r|]|] eqn:Hloop; try done.
  intros [= ->]. by apply bfs_loop_bound in Hloop as [_ ?].
Qed.

Lemma find_path_bfs_bound_witness : (length [(7, false)] ≤ 0 + 1)%nat.
Proof.
  apply (find_path_bfs_bound ex_graph ex_geoms ex_east ex_west 0 [(7, false)]).
  vm_compute. reflexivity.
Defined.

(** X2.  [find_path_bfs] returns the empty path exactly when the start
    node is the end node; between two different nodes a returned path has
    at least one step. *)
Theorem find_path_bfs_empty_iff (graph : Graph) (segment_geoms : GeometryStore)
    (start_node end_node : Key) (max_segments : nat) :
  find_path_bfs graph segment_geoms start_node end_node max_segments = Some []
  ↔ start_node = end_node.
Proof.
  unfold find_path_bfs, find_path_bfs_fuel.
  destruct (decide (start_node = end_node)) as [|Hne]; [done|].
  split; [|done].
  destruct (bfs_loop (bfs_fuel graph) graph end_node max_segments
              [(start_node, [])] {[start_node]}) as [[r|]|] eqn:Hloop; try done.
  intros [= ->]. by apply bfs_loop_bound in Hloop as [? _].
Qed.

(** With the queue empty, every node a walk reaches has been expanded. *)
Lemma bfs_inv_exhausted graph start_node end_node d visited expanded w q :
  bfs_inv graph start_node end_node d [] [] visited expanded →
  walk graph start_node q w → w ∈ expanded.
Proof.
  intros [Hend Hvis Hexp Hq1 Hq2 Hbelow Hlevel]. revert w.
  induction q as [|x q IH] using rev_ind; intros w Hwalk.
  - destruct (decide (d = 0)%nat) as [->|].
    + destruct (Hlevel w [] Hwalk eq_refl) as [|Hin]; [done|].
      simpl in Hin. by apply elem_of_nil in Hin.
    + apply (Hbelow w []); [done|simpl; lia].
  - apply walk_snoc_inv in Hwalk as (v & Hv & Hedge).
    apply IH in Hv.
    destruct (Hvis w) as [|Hin]; [by eapply Hexp|done|].
    simpl in Hin. by apply elem_of_nil in Hin.
Qed.

(** From a state that satisfies the invariant, the loop does not give up
    while a walk to the end node of at most [max_segments + 1] steps
    exists. *)
Lemma bfs_loop_complete fuel graph start_node end_node max_segments q :
  start_node ≠ end_node →
  walk graph start_node q end_node → (length q ≤ max_segments + 1)%nat →
  ∀ d q1 q2 visited expanded,
    bfs_inv graph start_node end_node d q1 q2 visited expanded →
    bfs_loop fuel graph end_node max_segments (q1 ++ q2) visited ≠ Some None.
Proof.
  intros Hne Hwalk Hlen.
  assert (Hpred : ∃ q' x v, q = q' ++ [x] ∧ walk graph start_node q' v
                    ∧ (end_node, x.1, x.2) ∈ graph_get graph v).
  { destruct q as [|x q' _] using rev_ind.
    - by apply walk_nil_inv in Hwalk.
    - apply walk_snoc_inv in Hwalk as (v & Hv & Hedge). by exists q', x, v. }
  destruct Hpred as (q' & x & v & -> & Hv & Hedge).
  rewrite length_app in Hlen. simpl in Hlen.
  assert (Hlevel : ∀ d q1 q2 visited expanded,
            bfs_inv graph start_node end_node d q1 q2 visited expanded →
            (d ≤ length q')%nat).
  { intros d q1 q2 visited expanded [Hend _ Hexp _ _ Hbelow _].
    destruct (decide (d ≤ length q')%nat); [done|]. exfalso.
    apply Hend. eapply Hexp; [|exact Hedge]. apply (Hbelow v q'); [done|lia]. }
  induction fuel as [|fuel IH]; intros d q1 q2 visited expanded Hinv; simpl;
    [done|].
  destruct (q1 ++ q2) as [|[u p] rest] eqn:Hq.
  - apply app_eq_nil in Hq as [-> ->]. exfalso.
    pose proof (bfs_inv_exhausted _ _ _ _ _ _ _ _ Hinv Hv) as Hexpd.
    destruct Hinv as [Hend _ Hexp _ _ _ _]. apply Hend. by eapply Hexp.
  - destruct (bfs_inv_head _ _ _ _ _ _ _ _ _ _ _ Hinv Hq)
      as (d' & q1' & q2' & -> & Hinv').
    pose proof (Hlevel _ _ _ _ _ Hinv') as Hd'.
    assert (length p = d') as Hp.
    { destruct Hinv' as [_ _ _ Hq1 _ _ _]. by destruct (Hq1 u p) as [_ ?]; [left|]. }
    rewrite decide_False by lia.
    destruct (scan_edges (graph_get graph u) end_node p visited (q1' ++ q2'))
      as [r|visited' queue'] eqn:Hscan; [done|].
    destruct (bfs_inv_step _ _ _ _ _ _ _ _ _ _ _ _ Hinv' Hscan)
      as (new & -> & Hinv''). eauto.
Qed.

Lemma find_path_bfs_complete graph segment_geoms start_node end_node
    max_segments q :
  walk graph start_node q end_node → (length q ≤ max_segments + 1)%nat →
  is_Some (find_path_bfs graph segment_geoms start_node end_node max_segments).
Proof.
  intros Hwalk Hlen.
  pose proof (find_path_bfs_fuel_enough (bfs_fuel graph) graph segment_geoms
                start_node end_node max_segments (Nat.le_refl _)) as Hfuel.
  destruct (find_path_bfs graph segment_geoms start_node end_node max_segments)
    as [p|] eqn:Hres; [eauto|]. exfalso.
  unfold find_path_bfs_fuel in Hfuel.
  destruct (decide (start_node = end_node)) as [|Hne]; [done|].
  revert Hfuel.
  eapply (bfs_loop_complete _ _ start_node _ _ q Hne Hwalk Hlen
            0%nat [(start_node, [])] []).
  by apply bfs_inv_init.
Qed.

(** X3.  [find_path_bfs] returns [None] exactly when every walk of the
    graph from the start node to the end node has more than
    [max_segments + 1] steps; in particular when there is none. *)
Theorem find_path_bfs_None_iff (graph : Graph) (segment_geoms : GeometryStore)
    (start_node end_node : Key) (max_segments : nat) :
  find_path_bfs graph segment_geoms start_node end_node max_segments = None
  ↔ ∀ q, walk graph start_node q end_node → (max_segments + 1 < length q)%nat.
Proof.
  split.
  - intros Hnone q Hwalk.
    destruct (decide (max_segments + 1 < length q)%nat) as [|Hle]; [done|].
    destruct (find_path_bfs_complete graph segment_geoms start_node end_node
                max_segments q Hwalk) as [p Hp]; [lia|]. congruence.
  - intros Hall.
    destruct (find_path_bfs graph segment_geoms start_node end_node max_segments)
      as [p|] eqn:Hres; [|done]. exfalso.
    pose proof (find_path_bfs_walk _ _ _ _ _ _ Hres) as Hwalk.
    apply Hall in Hwalk. revert Hres. unfold find_path_bfs, find_path_bfs_fuel.
    destruct (decide (start_node = end_node)); [intros [= <-]; simpl in *; lia|].
    destruct (bfs_loop (bfs_fuel graph) graph end_node max_segments
                [(start_node, [])] {[start_node]}) as [[r|]|] eqn:Hloop; try done.
    intros [= ->]. apply bfs_loop_bound in Hloop as [_ ?]. lia.
Qed.

(** ** TrackGraphBuilder: the graph is undirected *)

Lemma graph_edges_key graph u e :
  (u, e) ∈ graph_edges graph → u ∈ graph_keys graph.
Proof.
  unfold graph_edges, graph_keys.
  induction graph as [|[k es] rest IH]; simpl; [by intros ?%elem_of_nil|].
  intros [Hin|Hin]%elem_of_app.
  - apply list_elem_of_fmap in Hin as (e' & [= -> ->] & _). by left.
  - right. auto.
Qed.

Lemma graph_get_of_edges graph u e :
  NoDup (graph_keys graph) → (u, e) ∈ graph_edges graph → e ∈ graph_get graph u.
Proof.
  induction graph as [|[k es] rest IH]; [by intros _ ?%elem_of_nil|].
  unfold graph_keys. rewrite fmap_cons, NoDup_cons. simpl.
  intros [Hk Hnd] Hin. apply elem_of_app in Hin as [Hin|Hin].
  - apply list_elem_of_fmap in Hin as (e' & [= -> ->] & He).
    by rewrite decide_True.
  - rewrite decide_False; [by apply IH|].
    intros ->. apply Hk. by eapply graph_edges_key.
Qed.

Lemma segment_edges_sym seg u v seg_id reversed_dir :
  (u, (v, seg_id, reversed_dir)) ∈ segment_edges seg →
  (v, (u, seg_id, negb reversed_dir)) ∈ segment_edges seg.
Proof.
  unfold segment_edges.
  destruct (geometry seg) as [geom|]; [|by intros ?%elem_of_nil].
  destruct (head geom), (last geom); try (by intros ?%elem_of_nil).
  case_decide; [|by intros ?%elem_of_nil].
  rewrite !elem_of_cons.
  intros [[= -> -> -> ->]|[[= -> -> -> ->]|?%elem_of_nil]]; simpl; auto.
  done.
Qed.

Lemma build_track_graph_edge_sym segments graph segment_geoms u v seg_id
    reversed_dir :
  build_track_graph segments = Some (graph, segment_geoms) →
  (v, seg_id, reversed_dir) ∈ graph_get graph u →
  (u, seg_id, negb reversed_dir) ∈ graph_get graph v.
Proof.
  intros Hbuild Hedge.
  pose proof (build_track_graph_keys_NoDup _ _ _ Hbuild) as Hnd.
  unfold build_track_graph in Hbuild.
  pose proof (build_loop_edges _ _ _ _ _ Hbuild) as Hperm. simpl in Hperm.
  apply graph_get_edges in Hedge. rewrite Hperm in Hedge.
  apply list_elem_of_bind in Hedge as (seg & Hedge & Hseg).
  apply segment_edges_sym in Hedge.
  apply graph_get_of_edges; [done|]. rewrite Hperm.
  apply list_elem_of_bind. eauto.
Qed.

(** X4.  The graph that [build_track_graph] returns is undirected: with
    every edge from [u] to [v] it holds the edge from [v] to [u] of the same
    segment in the other direction; and every node an edge leads to is a key
    of the graph. *)
Theorem build_track_graph_undirected (segments : list Element) (graph : Graph)
    (segment_geoms : GeometryStore) :
  build_track_graph segments = Some (graph, segment_geoms) →
  ∀ u v seg_id reversed_dir,
    (v, seg_id, reversed_dir) ∈ graph_get graph u →
    (u, seg_id, negb reversed_dir) ∈ graph_get graph v
    ∧ v ∈ graph_keys graph.
Proof.
  intros Hbuild u v sid rd Hedge.
  pose proof (build_track_graph_edge_sym _ _ _ _ _ _ _ Hbuild Hedge) as Hback.
  split; [done|]. eapply graph_edges_key. by apply graph_get_edges.
Qed.

Lemma build_track_graph_undirected_witness :
  (ex_west, 7, negb true) ∈ graph_get ex_graph ex_east
  ∧ ex_east ∈ graph_keys ex_graph.
Proof.
  apply (build_track_graph_undirected (load_osm_data ex_elements)
           ex_graph ex_geoms ex_build ex_west ex_east 7 true).
  assert (Hget : graph_get ex_graph ex_west = [(ex_east, 7, true)])
    by (vm_compute; reflexivity).
  rewrite Hget. left.
Defined.

Lemma reverse_path_cons step path :
  reverse_path (step :: path) = reverse_path path ++ [(step.1, negb step.2)].
Proof. unfold reverse_path. by rewrite reverse_cons, fmap_app. Qed.

Lemma length_reverse_path path : length (reverse_path path) = length path.
Proof. unfold reverse_path. by rewrite length_fmap, length_reverse. Qed.

Lemma walk_reverse graph u path w :
  (∀ u v seg_id reversed_dir,
     (v, seg_id, reversed_dir) ∈ graph_get graph u →
     (u, seg_id, negb reversed_dir) ∈ graph_get graph v) →
  walk graph u path w → walk graph w (reverse_path path) u.
Proof.
  intros Hsym. induction 1 as [u|u v w sid rd path Hedge Hwalk IH].
  - constructor.
  - rewrite reverse_path_cons. simpl. eapply walk_snoc; eauto.
Qed.

Lemma find_path_bfs_shortest graph segment_geoms start_node end_node
    max_segments path q :
  find_path_bfs graph segment_geoms start_node end_node max_segments = Some path →
  walk graph start_node q end_node → (length path ≤ length q)%nat.
Proof.
  unfold find_path_bfs, find_path_bfs_fuel.
  destruct (decide (start_node = end_node)) as [->|Hne].
  - intros [= <-] _. simpl. lia.
  - destruct (bfs_loop (bfs_fuel graph) graph end_node max_segments
                [(start_node, [])] {[start_node]}) as [[r|]|] eqn:Hloop;
      try done.
    intros [= ->].
    eapply (bfs_loop_min (bfs_fuel graph) graph start_node end_node
              max_segments Hne 0 [(start_node, [])] []); [|exact Hloop].
    by apply bfs_inv_init.
Qed.

Lemma find_path_bfs_length_bound graph segment_geoms start_node end_node
    max_segments path :
  find_path_bfs graph segment_geoms start_node end_node max_segments = Some path →
  (length path ≤ max_segments + 1)%nat.
Proof.
  unfold find_path_bfs, find_path_bfs_fuel.
  destruct (decide (start_node = end_node)); [intros [= <-]; simpl; lia|].
  destruct (bfs_loop (bfs_fuel graph) graph end_node max_segments
              [(start_node, [])] {[start_node]}) as [[r|]|] eqn:Hloop; try done.
  intros [= ->]. by apply bfs_loop_bound in Hloop as [_ ?].
Qed.

(** A path found one way gives a path the other way, no longer. *)
Lemma find_path_bfs_back segments graph segment_geoms start_node end_node
    max_segments path :
  build_track_graph segments = Some (graph, segment_geoms) →
  find_path_bfs graph segment_geoms start_node end_node max_segments = Some path →
  ∃ path',
    find_path_bfs graph segment_geoms end_node start_node max_segments
      = Some path'
    ∧ (length path' ≤ length path)%nat.
Proof.
  intros Hbuild Hpath.
  pose proof (find_path_bfs_walk _ _ _ _ _ _ Hpath) as Hwalk.
  pose proof (find_path_bfs_length_bound _ _ _ _ _ _ Hpath) as Hlen.
  apply (walk_reverse graph) in Hwalk;
    [|intros; by eapply build_track_graph_edge_sym].
  destruct (find_path_bfs_complete graph segment_geoms end_node start_node
              max_segments (reverse_path path) Hwalk) as [path' Hpath'];
    [by rewrite length_reverse_path|].
  exists path'. split; [done|].
  rewrite <- (length_reverse_path path).
  by eapply find_path_bfs_shortest.
Qed.

(** X5.  Over a graph that [build_track_graph] returns, the search does
    not depend on the direction: a path is found from [a] to [b] exactly
    when one is found from [b] to [a], and the two have the same number of
    steps. *)
Theorem find_path_bfs_symmetric (segments : list Element) (graph : Graph)
    (segment_geoms : GeometryStore) (a b : Key) (max_segments : nat) :
  build_track_graph segments = Some (graph, segment_geoms) →
  length <$> find_path_bfs graph segment_geoms a b max_segments
  = length <$> find_path_bfs graph segment_geoms b a max_segments.
Proof.
  intros Hbuild.
  destruct (find_path_bfs graph segment_geoms a b max_segments) as [p|] eqn:Hab;
    destruct (find_path_bfs graph segment_geoms b a max_segments) as [p'|] eqn:Hba;
    simpl; try done.
  - destruct (find_path_bfs_back _ _ _ _ _ _ _ Hbuild Hab) as (r & Hr & Hle).
    destruct (find_path_bfs_back _ _ _ _ _ _ _ Hbuild Hba) as (r' & Hr' & Hle').
    simplify_eq. f_equal. lia.
  - destruct (find_path_bfs_back _ _ _ _ _ _ _ Hbuild Hab) as (r & Hr & _).
    congruence.
  - destruct (find_path_bfs_back _ _ _ _ _ _ _ Hbuild Hba) as (r & Hr & _).
    congruence.
Qed.

Lemma find_path_bfs_symmetric_witness :
  length <$> find_path_bfs ex_graph ex_geoms ex_east ex_west default_max_segments
  = length <$> find_path_bfs ex_graph ex_geoms ex_west ex_east default_max_segments.
Proof.
  apply (find_path_bfs_symmetric (load_osm_data ex_elements)).
  exact ex_build.
Defined.

(** ** RouteShapeGenerator: the batch *)

(** Over a built graph the coordinates of a found path can be assembled. *)
Lemma built_path_coordinates segments graph segment_geoms start_node end_node
    max_segments path :
  build_track_graph segments = Some (graph, segment_geoms) →
  find_path_bfs graph segment_geoms start_node end_node max_segments = Some path →
  ∀ step, step ∈ path → is_Some (segment_geoms !! step.1).
Proof.
  unfold build_track_graph. intros Hbuild Hpath%find_path_bfs_walk step Hstep.
  destruct (walk_edges _ _ _ _ _ Hpath Hstep) as (ke & Hke & <-).
  rewrite (build_loop_edges _ _ _ _ _ Hbuild) in Hke. simpl in Hke.
  apply list_elem_of_bind in Hke as (seg & Hke & Hseg).
  apply (build_loop_dom _ _ _ _ _ _ Hbuild). right.
  destruct (segment_edges_geometry _ _ Hke) as (geom & Hgeom & Hlen).
  exists seg, geom. by rewrite (segment_edges_id _ _ Hke).
Qed.

Lemma route_after_path_is_Some segments graph segment_geoms start_node end_node
    max_segments route_id shapes :
  build_track_graph segments = Some (graph, segment_geoms) →
  is_Some (route_after_path route_id
             (find_path_bfs graph segment_geoms start_node end_node max_segments)
             segment_geoms shapes).
Proof.
  intros Hbuild. unfold route_after_path.
  destruct (find_path_bfs graph segment_geoms start_node end_node max_segments)
    as [path|] eqn:Hpath; simpl; [|eauto].
  destruct path as [|step path]; simpl; [eauto|].
  destruct (path_to_coordinates_from_is_Some [] (step :: path) segment_geoms)
    as [coords Hcoords]; [by eapply built_path_coordinates|].
  unfold path_to_coordinates. rewrite Hcoords. simpl. eauto.
Qed.

Lemma route_iteration_is_Some segments graph segment_geoms STATIONS route shapes :
  build_track_graph segments = Some (graph, segment_geoms) →
  is_Some (route_iteration STATIONS graph segment_geoms route shapes).
Proof.
  intros Hbuild. unfold route_iteration. destruct route as [route_id route_info].
  destruct (STATIONS !! (terminals route_info).1) as [start_station|]; [|eauto].
  destruct (STATIONS !! (terminals route_info).2) as [end_station|]; [|eauto].
  destruct (find_nearest_node graph (station_lat start_station) _ _)
    as [[start_node|] start_dist];
    destruct (find_nearest_node graph (station_lat end_station) _ _)
      as [[end_node|] end_dist]; eauto.
  destruct (route_after_path_is_Some segments graph segment_geoms start_node
              end_node default_max_segments route_id shapes Hbuild)
    as [[shapes' msgs] ->]. simpl. eauto.
Qed.

Lemma routes_loop_is_Some segments graph segment_geoms STATIONS routes shapes log :
  build_track_graph segments = Some (graph, segment_geoms) →
  is_Some (routes_loop STATIONS graph segment_geoms routes shapes log).
Proof.
  intros Hbuild. revert shapes log.
  induction routes as [|route rest IH]; intros shapes log; simpl; [eauto|].
  destruct (route_iteration_is_Some segments graph segment_geoms STATIONS route
              shapes Hbuild) as [[shapes' msgs] ->]. simpl. apply IH.
Qed.

(** X6.  [generate_shapes] never stops on a missing key: whatever the
    stations and the elements, the filtered segments can be built into a
    graph, and every path found over it can be turned into coordinates. *)
Theorem generate_shapes_never_fails (STATIONS : gmap string Station)
    (elements : list Element) :
  is_Some (generate_shapes STATIONS elements).
Proof.
  unfold generate_shapes.
  destruct (build_loop_is_Some (load_osm_data elements) ([], ∅)
              (load_osm_data_has_geometry elements)) as [[graph geoms] Hbuild].
  fold (build_track_graph (load_osm_data elements)) in Hbuild.
  destruct (routes_loop_is_Some _ _ _ STATIONS ROUTES [] [] Hbuild)
    as [[shapes log] Hloop].
  rewrite Hbuild. cbn -[routes_loop]. rewrite Hloop. cbn. eauto.
Qed.

(** What an iteration adds to [shapes]: nothing, or one shape under the
    id of the route, assembled from a path found between two nodes. *)
Lemma route_iteration_result STATIONS graph segment_geoms route shapes
    shapes' msgs :
  route_iteration STATIONS graph segment_geoms route shapes = Some (shapes', msgs) →
  shapes' = shapes
  ∨ ∃ start_node end_node path coords,
      find_path_bfs graph segment_geoms start_node end_node default_max_segments
        = Some path
      ∧ path ≠ []
      ∧ path_to_coordinates path segment_geoms = Some coords
      ∧ shapes' = shapes ++ [(route.1, coords)].
Proof.
  unfold route_iteration. destruct route as [route_id route_info].
  destruct (STATIONS !! (terminals route_info).1) as [start_station|];
    [|intros [= <- <-]; by left].
  destruct (STATIONS !! (terminals route_info).2) as [end_station|];
    [|intros [= <- <-]; by left].
  destruct (find_nearest_node graph (station_lat start_station) _ _)
    as [[start_node|] start_dist];
    destruct (find_nearest_node graph (station_lat end_station) _ _)
      as [[end_node|] end_dist]; try (intros [= <- <-]; by left).
  unfold route_after_path.
  destruct (find_path_bfs graph segment_geoms start_node end_node
              default_max_segments) as [[|step path]|] eqn:Hpath; simpl;
    try (intros [= <- <-]; by left).
  destruct (path_to_coordinates (step :: path) segment_geoms)
    as [coords|] eqn:Hcoords; simpl; [|done].
  intros [= <- <-]. right. exists start_node, end_node, (step :: path), coords.
  done.
Qed.

Lemma routes_loop_result STATIONS graph segment_geoms routes shapes log
    shapes' log' :
  routes_loop STATIONS graph segment_geoms routes shapes log = Some (shapes', log') →
  ∃ added,
    shapes' = shapes ++ added
    ∧ added.*1 `sublist_of` routes.*1
    ∧ Forall (λ shape, ∃ start_node end_node path,
                find_path_bfs graph segment_geoms start_node end_node
                  default_max_segments = Some path
                ∧ path ≠ []
                ∧ path_to_coordinates path segment_geoms = Some shape.2) added.
Proof.
  revert shapes log.
  induction routes as [|route rest IH]; intros shapes log; simpl.
  - intros [= <- <-]. exists []. by rewrite app_nil_r.
  - destruct (route_iteration STATIONS graph segment_geoms route shapes)
      as [[shapes1 msgs]|] eqn:Hit; simpl; [|done].
    intros (added & -> & Hsub & Hall)%IH.
    apply route_iteration_result in Hit
      as [->|(s & e & path & coords & Hpath & Hne & Hcoords & ->)].
    + exists added. split; [done|]. split; [by apply sublist_cons|done].
    + exists ((route.1, coords) :: added). rewrite <- app_assoc.
      split; [done|]. split; [by apply sublist_skip|].
      constructor; [|done]. by exists s, e, path.
Qed.

(** The geometry store after the loop holds, besides what it held before,
    geometries of segments of the list, each of at least two points, under
    the id of its segment. *)
Lemma build_loop_geoms_inv segments graph geoms graph' geoms' seg_id geom :
  build_loop segments (graph, geoms) = Some (graph', geoms') →
  geoms' !! seg_id = Some geom →
  geoms !! seg_id = Some geom
  ∨ ∃ seg, seg ∈ segments ∧ id seg = seg_id ∧ geometry seg = Some geom
           ∧ (2 ≤ length geom)%nat.
Proof.
  revert graph geoms.
  induction segments as [|seg rest IH]; intros graph geoms; simpl.
  - intros [= <- <-]. by left.
  - destruct (build_step (graph, geoms) seg) as [[g1 m1]|] eqn:Hstep; simpl; [|done].
    intros Hloop Hget.
    destruct (IH _ _ Hloop Hget) as [Hm1|(s & Hs & Hid & Hg & Hl)].
    2:{ right. exists s. split; [by right|done]. }
    revert Hstep. unfold build_step.
    destruct (geometry seg) as [g|] eqn:Hgeom; simpl; [|done].
    case_bool_decide as Hlen; [intros [= <- <-]; by left|].
    destruct (head g); simpl; [|done]. destruct (last g); simpl; [|done].
    intros [= <- <-]. destruct (decide (id seg = seg_id)) as [Hid|Hid].
    + rewrite Hid, lookup_insert_eq in Hm1. simplify_eq.
      right. exists seg. split; [by left|]. repeat split; [done|lia].
    + rewrite lookup_insert_ne in Hm1 by done. by left.
Qed.

(** X7.  Every geometry that [build_track_graph] puts in the store is the
    geometry of an input segment with that id, and it has at least two
    points. *)
Theorem build_track_graph_store (segments : list Element) (graph : Graph)
    (segment_geoms : GeometryStore) (seg_id : Z) (geom : list LatLon) :
  build_track_graph segments = Some (graph, segment_geoms) →
  segment_geoms !! seg_id = Some geom →
  (2 ≤ length geom)%nat
  ∧ ∃ seg, seg ∈ segments ∧ id seg = seg_id ∧ geometry seg = Some geom.
Proof.
  unfold build_track_graph. intros Hbuild Hget.
  destruct (build_loop_geoms_inv _ _ _ _ _ _ _ Hbuild Hget)
    as [Hempty|(seg & Hseg & Hid & Hgeom & Hlen)]; [done|].
  split; [done|]. by exists seg.
Qed.

Lemma build_track_graph_store_witness :
  (2 ≤ length ex_geom)%nat
  ∧ ∃ seg, seg ∈ load_osm_data ex_elements ∧ id seg = 7
           ∧ geometry seg = Some ex_geom.
Proof.
  apply (build_track_graph_store (load_osm_data ex_elements) ex_graph ex_geoms).
  - exact ex_build.
  - reflexivity.
Defined.

Lemma path_to_coordinates_from_prefix coords path segment_geoms coords' :
  path_to_coordinates_from coords path segment_geoms = Some coords' →
  coords `prefix_of` coords'.
Proof.
  revert coords. induction path as [|[seg_id rd] rest IH]; intros coords; simpl.
  - by intros [= <-].
  - destruct (segment_geoms !! seg_id) as [geom|]; simpl; [|done].
    intros Hrest%IH. etrans; [|exact Hrest]. by apply prefix_app_r.
Qed.

(** The coordinates of a non-empty path begin with all the points of its
    first segment. *)
Lemma path_to_coordinates_first seg_id reversed_dir rest
    (segment_geoms : GeometryStore) coords :
  path_to_coordinates ((seg_id, reversed_dir) :: rest) segment_geoms = Some coords →
  ∃ geom, segment_geoms !! seg_id = Some geom
          ∧ segment_points geom reversed_dir `prefix_of` coords.
Proof.
  unfold path_to_coordinates. simpl.
  destruct (segment_geoms !! seg_id) as [geom|]; simpl; [|done].
  intros Hrest%path_to_coordinates_from_prefix. by exists geom.
Qed.

Lemma generate_shapes_result STATIONS elements :
  ∃ graph segment_geoms shapes log,
    build_track_graph (load_osm_data elements) = Some (graph, segment_geoms)
    ∧ routes_loop STATIONS graph segment_geoms ROUTES [] [] = Some (shapes, log)
    ∧ generate_shapes STATIONS elements
      = Some (shapes, log, write_shapes shapes).
Proof.
  destruct (build_loop_is_Some (load_osm_data elements) ([], ∅)
              (load_osm_data_has_geometry elements)) as [[graph geoms] Hbuild].
  fold (build_track_graph (load_osm_data elements)) in Hbuild.
  destruct (routes_loop_is_Some _ _ _ STATIONS ROUTES [] [] Hbuild)
    as [[shapes log] Hloop].
  exists graph, geoms, shapes, log. repeat split; try done.
  unfold generate_shapes. rewrite Hbuild. cbn -[routes_loop].
  rewrite Hloop. done.
Qed.

(** X8.  The shapes that [generate_shapes] collects come in the order of
    the route table, at most one for each route and under the id of its
    route: their ids form a sublist of the ids of [ROUTES]. *)
Theorem generate_shapes_shape_ids (STATIONS : gmap string Station)
    (elements : list Element) :
  ∃ shapes log rows,
    generate_shapes STATIONS elements = Some (shapes, log, rows)
    ∧ shapes.*1 `sublist_of` ROUTES.*1.
Proof.
  destruct (generate_shapes_result STATIONS elements)
    as (graph & geoms & shapes & log & Hbuild & Hloop & Hgen).
  exists shapes, log, (write_shapes shapes). split; [done|].
  apply routes_loop_result in Hloop as (added & -> & Hsub & _). done.
Qed.

(** X9.  Every shape that [generate_shapes] collects has at least two
    points. *)
Theorem generate_shapes_shape_points (STATIONS : gmap string Station)
    (elements : list Element) :
  ∃ shapes log rows,
    generate_shapes STATIONS elements = Some (shapes, log, rows)
    ∧ ∀ shape, shape ∈ shapes → (2 ≤ length shape.2)%nat.
Proof.
  destruct (generate_shapes_result STATIONS elements)
    as (graph & geoms & shapes & log & Hbuild & Hloop & Hgen).
  exists shapes, log, (write_shapes shapes). split; [done|].
  apply routes_loop_result in Hloop as (added & -> & _ & Hall).
  intros shape Hshape. rewrite Forall_forall in Hall.
  destruct (Hall shape Hshape) as (s & e & path & Hpath & Hne & Hcoords).
  destruct path as [|[seg_id rd] rest]; [done|].
  apply path_to_coordinates_first in Hcoords as (geom & Hgeom & Hpre).
  unfold build_track_graph in Hbuild.
  destruct (build_loop_geoms_inv _ _ _ _ _ _ _ Hbuild Hgeom)
    as [Hempty|(seg & _ & _ & _ & Hlen)]; [done|].
  apply prefix_length in Hpre. rewrite length_segment_points in Hpre. lia.
Qed.

Lemma route_iteration_shapes STATIONS graph segment_geoms route shapes :
  route_iteration STATIONS graph segment_geoms route shapes
  = (λ r : list Shape * list Msg, (shapes ++ r.1, r.2))
      <$> route_iteration STATIONS graph segment_geoms route [].
Proof.
  unfold route_iteration. destruct route as [route_id route_info].
  destruct (STATIONS !! (terminals route_info).1) as [start_station|];
    [|simpl; by rewrite app_nil_r].
  destruct (STATIONS !! (terminals route_info).2) as [end_station|];
    [|simpl; by rewrite app_nil_r].
  destruct (find_nearest_node graph (station_lat start_station) _ _)
    as [[start_node|] start_dist];
    destruct (find_nearest_node graph (station_lat end_station) _ _)
      as [[end_node|] end_dist]; try (simpl; by rewrite app_nil_r).
  unfold route_after_path.
  destruct (not_path _); simpl; [by rewrite app_nil_r|].
  by destruct (path_to_coordinates _ _).
Qed.

(** X10.  The routes are processed independently: what the loop returns
    for a list of routes is what each route gives when processed alone,
    from no shapes, put together in the order of the list.  A route that
    yields no shape changes nothing for the routes after it. *)
Theorem routes_loop_independent (STATIONS : gmap string Station)
    (graph : Graph) (segment_geoms : GeometryStore)
    (routes : list (string * RouteInfo)) (shapes : list Shape) (log : list Msg) :
  routes_loop STATIONS graph segment_geoms routes shapes log
  = results ← mapM (λ route, route_iteration STATIONS graph segment_geoms route [])
                routes;
    Some (shapes ++ concat results.*1, log ++ concat results.*2).
Proof.
  revert shapes log.
  induction routes as [|route rest IH]; intros shapes log; simpl.
  - by rewrite !app_nil_r.
  - rewrite route_iteration_shapes.
    destruct (route_iteration STATIONS graph segment_geoms route [])
      as [[added msgs]|]; simpl; [|done].
    rewrite IH.
    destruct (mapM _ rest) as [results|]; simpl; [|done].
    by rewrite <- !app_assoc.
Qed.

(** ** The ends of an assembled shape *)

Lemma segment_points_ends geom reversed_dir p0 pn :
  head geom = Some p0 → last geom = Some pn →
  head (segment_points geom reversed_dir)
    = Some (if reversed_dir then (lat pn, lon pn) else (lat p0, lon p0))
  ∧ last (segment_points geom reversed_dir)
    = Some (if reversed_dir then (lat p0, lon p0) else (lat pn, lon pn)).
Proof.
  intros Hhead Hlast. unfold segment_points. destruct reversed_dir.
  - rewrite head_reverse, last_reverse, fmap_last, Hlast.
    destruct geom; simplify_eq/=. done.
  - rewrite fmap_last, Hlast. destruct geom; simplify_eq/=. done.
Qed.

(** With distinct segment ids, the stored geometry of an edge starts at the
    node the edge leaves and ends at the node it leads to, once rounded. *)
Lemma built_edge_geometry segments graph segment_geoms u v seg_id reversed_dir :
  build_track_graph segments = Some (graph, segment_geoms) →
  NoDup (id <$> segments) →
  (v, seg_id, reversed_dir) ∈ graph_get graph u →
  ∃ geom first lst,
    segment_geoms !! seg_id = Some geom
    ∧ (2 ≤ length geom)%nat
    ∧ head (segment_points geom reversed_dir) = Some first
    ∧ last (segment_points geom reversed_dir) = Some lst
    ∧ coord_key first.1 first.2 = u
    ∧ coord_key lst.1 lst.2 = v.
Proof.
  unfold build_track_graph. intros Hbuild Hnd Hedge%graph_get_edges.
  rewrite (build_loop_edges _ _ _ _ _ Hbuild) in Hedge. simpl in Hedge.
  apply list_elem_of_bind in Hedge as (seg & Hedge & Hseg).
  unfold segment_edges in Hedge.
  destruct (geometry seg) as [geom|] eqn:Hgeom; [|by apply elem_of_nil in Hedge].
  destruct (head geom) as [p0|] eqn:Hp0; [|by apply elem_of_nil in Hedge].
  destruct (last geom) as [pn|] eqn:Hpn; [|by apply elem_of_nil in Hedge].
  case_decide as Hlen; [|by apply elem_of_nil in Hedge].
  pose proof (build_loop_geoms _ _ _ _ _ _ _ Hbuild Hnd Hseg Hgeom Hlen) as Hget.
  rewrite !elem_of_cons in Hedge.
  destruct Hedge as [Heq|[Heq|?%elem_of_nil]]; [| |done]; simplify_eq.
  - destruct (segment_points_ends geom false p0 pn Hp0 Hpn) as [Hh Hl].
    by exists geom, (lat p0, lon p0), (lat pn, lon pn).
  - destruct (segment_points_ends geom true p0 pn Hp0 Hpn) as [Hh Hl].
    by exists geom, (lat pn, lon pn), (lat p0, lon p0).
Qed.

(** The last point of the coordinates is the last point of the last
    segment, when that segment has at least two points. *)
Lemma path_to_coordinates_last path seg_id reversed_dir
    (segment_geoms : GeometryStore) geom coords :
  segment_geoms !! seg_id = Some geom → (2 ≤ length geom)%nat →
  path_to_coordinates (path ++ [(seg_id, reversed_dir)]) segment_geoms
    = Some coords →
  last coords = last (segment_points geom reversed_dir).
Proof.
  intros Hgeom Hlen. unfold path_to_coordinates.
  rewrite path_to_coordinates_from_app.
  destruct (path_to_coordinates_from [] path segment_geoms) as [c1|]; simpl;
    [|done].
  rewrite Hgeom. simpl. intros [= <-].
  pose proof (length_segment_points geom reversed_dir) as Hpts.
  destruct (segment_points geom reversed_dir) as [|a [|b pts]] eqn:Hsp;
    simpl in Hpts; try lia.
  destruct (junction_duplicate c1 (a :: b :: pts)); simpl.
  - rewrite last_app. simpl.
    destruct (last (b :: pts)) eqn:Hl; [done|]. by apply last_None in Hl.
  - rewrite last_app.
    destruct (last (a :: b :: pts)) eqn:Hl; [done|]. by apply last_None in Hl.
Qed.

(** X12.  Over a graph built from segments with distinct ids, the
    coordinates assembled from a found path of at least one step start at a
    point that rounds to the start node and end at a point that rounds to
    the end node. *)
Theorem path_coordinates_ends (segments : list Element) (graph : Graph)
    (segment_geoms : GeometryStore) (start_node end_node : Key)
    (max_segments : nat) (path : Path) :
  build_track_graph segments = Some (graph, segment_geoms) →
  NoDup (id <$> segments) →
  find_path_bfs graph segment_geoms start_node end_node max_segments = Some path →
  path ≠ [] →
  ∃ coords first lst,
    path_to_coordinates path segment_geoms = Some coords
    ∧ head coords = Some first ∧ last coords = Some lst
    ∧ coord_key first.1 first.2 = start_node
    ∧ coord_key lst.1 lst.2 = end_node.
Proof.
  intros Hbuild Hnd Hpath Hne.
  destruct (path_to_coordinates_from_is_Some [] path segment_geoms)
    as [coords Hcoords]; [by eapply built_path_coordinates|].
  fold (path_to_coordinates path segment_geoms) in Hcoords.
  pose proof (find_path_bfs_walk _ _ _ _ _ _ Hpath) as Hwalk.
  assert (Hfirst : ∃ first, head coords = Some first
                            ∧ coord_key first.1 first.2 = start_node).
  { destruct path as [|[sid rd] rest]; [done|].
    inversion Hwalk as [|? v ? ? ? ? Hedge Hrest]; subst.
    destruct (built_edge_geometry _ _ _ _ _ _ _ Hbuild Hnd Hedge)
      as (geom & first & lst & Hgeom & Hlen & Hh & Hl & Hk1 & Hk2).
    apply path_to_coordinates_first in Hcoords as (geom' & Hgeom' & Hpre).
    simplify_eq. exists first. split; [|done].
    destruct Hpre as [more ->].
    destruct (segment_points geom' rd); simplify_eq/=. done. }
  assert (Hlast : ∃ lst, last coords = Some lst
                         ∧ coord_key lst.1 lst.2 = end_node).
  { destruct path as [|[sid rd] rest _] using rev_ind; [done|].
    apply walk_snoc_inv in Hwalk as (v & _ & Hedge). simpl in Hedge.
    destruct (built_edge_geometry _ _ _ _ _ _ _ Hbuild Hnd Hedge)
      as (geom & first & lst & Hgeom & Hlen & Hh & Hl & Hk1 & Hk2).
    exists lst. split; [|done].
    by rewrite (path_to_coordinates_last _ _ _ _ _ _ Hgeom Hlen Hcoords). }
  destruct Hfirst as (first & Hf1 & Hf2). destruct Hlast as (lst & Hl1 & Hl2).
  by exists coords, first, lst.
Qed.

Lemma path_coordinates_ends_witness :
  ∃ coords first lst,
    path_to_coordinates [(7, false)] ex_geoms = Some coords
    ∧ head coords = Some first ∧ last coords = Some lst
    ∧ coord_key first.1 first.2 = ex_east
    ∧ coord_key lst.1 lst.2 = ex_west.
Proof.
  apply (path_coordinates_ends (load_osm_data ex_elements) ex_graph ex_geoms
           ex_east ex_west default_max_segments [(7, false)]).
  - exact ex_build.
  - apply NoDup_singleton.
  - vm_compute. reflexivity.
  - discriminate.
Defined.

(** ** PathAssembler: missing keys and prefixes *)

Lemma path_to_coordinates_from_None coords path (segment_geoms : GeometryStore) :
  path_to_coordinates_from coords path segment_geoms = None
  ↔ ∃ step, step ∈ path ∧ segment_geoms !! step.1 = None.
Proof.
  revert coords. induction path as [|[seg_id rd] rest IH]; intros coords; simpl.
  - split; [done|]. by intros (step & ?%elem_of_nil & _).
  - destruct (segment_geoms !! seg_id) as [geom|] eqn:Hgeom; simpl.
    + rewrite IH. split.
      * intros (step & Hin & Hnone). exists step. split; [by right|done].
      * intros (step & [->|Hin]%elem_of_cons & Hnone); [|by exists step].
        simpl in Hnone. congruence.
    + split; [|done]. intros _. exists (seg_id, rd). split; [by left|done].
Qed.

(** X13.  [path_to_coordinates] stops on a missing key exactly when some
    segment id of the path has no entry in the geometry store; otherwise it
    returns a coordinate list. *)
Theorem path_to_coordinates_None_iff (path : Path) (segment_geoms : GeometryStore) :
  path_to_coordinates path segment_geoms = None
  ↔ ∃ step, step ∈ path ∧ segment_geoms !! step.1 = None.
Proof. apply path_to_coordinates_from_None. Qed.

(** X14.  The coordinates of a path begin with the coordinates of each of
    its initial parts: assembling [path1 ++ path2] gives a list that has the
    list assembled from [path1] as a prefix. *)
Theorem path_to_coordinates_prefix (path1 path2 : Path)
    (segment_geoms : GeometryStore) (coords : list Coord) :
  path_to_coordinates (path1 ++ path2) segment_geoms = Some coords →
  ∃ coords1,
    path_to_coordinates path1 segment_geoms = Some coords1
    ∧ coords1 `prefix_of` coords.
Proof.
  unfold path_to_coordinates. rewrite path_to_coordinates_from_app.
  destruct (path_to_coordinates_from [] path1 segment_geoms) as [c1|]; simpl;
    [|done].
  intros Hrest%path_to_coordinates_from_prefix. by exists c1.
Qed.

Lemma path_to_coordinates_prefix_witness :
  ∃ coords1,
    path_to_coordinates [(7, false)] ex_geoms = Some coords1
    ∧ coords1 `prefix_of`
        [(Q2Qc 0, centi 1); (Q2Qc 0, centi (-1)); (Q2Qc 0, centi 1)].
Proof.
  apply (path_to_coordinates_prefix [(7, false)] [(7, true)] ex_geoms).
  vm_compute. reflexivity.
Defined.

(** ** haversine *)

Lemma Q2R_Qc_0 (x : Qc) : Q2R (x - x)%Qc = 0%R.
Proof. rewrite Q2R_Qc_minus. lra. Qed.

(** X15.  [haversine] is symmetric: the distance from one point to
    another is the distance back. *)
Theorem haversine_sym (lat1 lon1 lat2 lon2 : Qc) :
  haversine lat1 lon1 lat2 lon2 = haversine lat2 lon2 lat1 lon1.
Proof.
  unfold haversine, radians. rewrite !Q2R_Qc_minus.
  replace ((Q2R lat1 - Q2R lat2) * (PI / 180) / 2)%R
    with (- ((Q2R lat2 - Q2R lat1) * (PI / 180) / 2))%R by lra.
  replace ((Q2R lon1 - Q2R lon2) * (PI / 180) / 2)%R
    with (- ((Q2R lon2 - Q2R lon1) * (PI / 180) / 2))%R by lra.
  rewrite !sin_neg. do 4 f_equal. ring.
Qed.





(** ** NearestNodeFinder at a node, and under a larger radius *)

Lemma dist_to_self (node : Key) : dist_to node.1 node.2 node = 0%R.
Proof.
  unfold dist_to, haversine, radians. rewrite !Q2R_Qc_0.
  replace (0 * (PI / 180) / 2)%R with 0%R by lra. rewrite sin_0.
  replace (0 ^ 2 + cos (Q2R node.1 * (PI / 180)) * cos (Q2R node.1 * (PI / 180))
           * 0 ^ 2)%R with 0%R by lra.
  rewrite sqrt_0, asin_0. lra.
Qed.

(** X17.  Asked for the nearest node to the coordinates of a node of the
    graph, with a radius that is not negative, [find_nearest_node] returns
    a node at distance 0, and 0 as the distance. *)
Theorem find_nearest_node_at_node (graph : Graph) (node : Key) (max_dist_km : R) :
  node ∈ graph_keys graph → (0 <= max_dist_km)%R →
  ∃ n, find_nearest_node graph node.1 node.2 max_dist_km = (Some n, Fin 0%R)
       ∧ n ∈ graph_keys graph
       ∧ dist_to node.1 node.2 n = 0%R.
Proof.
  intros Hnode Hmax.
  destruct (find_nearest_node_spec graph node.1 node.2 max_dist_km)
    as [[Hnil _]|(i & n & Hi & Hmin & _ & ->)].
  - rewrite Hnil in Hnode. by apply elem_of_nil in Hnode.
  - assert (Hd : dist_to node.1 node.2 n = 0%R).
    { pose proof (Hmin node Hnode) as Hle. rewrite dist_to_self in Hle.
      pose proof (haversine_nonneg node.1 node.2 n.1 n.2) as Hge.
      unfold dist_to in *. lra. }
    exists n. rewrite Hd. rewrite decide_False by lra.
    split; [done|]. split; [by eapply list_elem_of_lookup_2|done].
Qed.

Lemma find_nearest_node_at_node_witness :
  ∃ n, find_nearest_node ex_graph ex_east.1 ex_east.2 default_max_dist_km
       = (Some n, Fin 0%R)
       ∧ n ∈ graph_keys ex_graph
       ∧ dist_to ex_east.1 ex_east.2 n = 0%R.
Proof.
  apply (find_nearest_node_at_node ex_graph ex_east default_max_dist_km).
  - unfold ex_graph, graph_keys. simpl. left.
  - unfold default_max_dist_km. lra.
Defined.

(** X18.  The radius only gates the answer: a node returned under one
    radius is returned, with the same distance, under every larger one. *)
Theorem find_nearest_node_radius_mono (graph : Graph) (la lo : Qc)
    (r r' : R) (n : Key) (d : Dist) :
  find_nearest_node graph la lo r = (Some n, d) → (r <= r')%R →
  find_nearest_node graph la lo r' = (Some n, d).
Proof.
  unfold find_nearest_node.
  destruct (nearest_scan (graph_keys graph) la lo None Inf)
    as [best_node best_dist].
  destruct (decide (dist_gt best_dist r)) as [|Hr]; [done|].
  intros [= -> ->] Hle. rewrite decide_False; [done|].
  destruct d; simpl in *; [lra|done].
Qed.

Lemma find_nearest_node_radius_mono_witness :
  find_nearest_node ex_graph (Q2Qc 0) (Q2Qc 0) 20%R
  = (Some ex_east, Fin (6371 * (PI / 18000))%R).
Proof.
  apply (find_nearest_node_radius_mono ex_graph (Q2Qc 0) (Q2Qc 0)
           default_max_dist_km 20%R).
  - exact ex_find_nearest_node.
  - unfold default_max_dist_km. lra.
Defined.

(** ** Rounding a key again *)

Lemma round_half_even_Z (z : Z) : round_half_even (Q2Qc (inject_Z z)) = z.
Proof.
  unfold round_half_even.
  assert (Hred : this (Q2Qc (inject_Z z)) = inject_Z z).
  { simpl. apply Qred_identity. simpl. apply Z.gcd_1_r. }
  rewrite Hred. simpl. rewrite Z.div_1_r, Z.mod_1_r. done.
Qed.

Lemma pow10_pos (n : nat) : 0 < 10 ^ Z.of_nat n.
Proof. apply Z.pow_pos_nonneg; lia. Qed.

Lemma round_idem (x : Qc) (ndigits : nat) :
  round (round x ndigits) ndigits = round x ndigits.
Proof.
  unfold round at 1.
  set (z := round_half_even (x * Q2Qc (inject_Z (10 ^ Z.of_nat ndigits)))%Qc).
  assert (Hscaled : (round x ndigits * Q2Qc (inject_Z (10 ^ Z.of_nat ndigits)))%Qc
                    = Q2Qc (inject_Z z)).
  { unfold round. fold z. unfold Qcmult. apply Q2Qc_eq_iff. simpl.
    rewrite !Qred_correct. pose proof (pow10_pos ndigits) as Hpos.
    field. intros Heq. unfold Qeq in Heq. simpl in Heq. lia. }
  rewrite Hscaled, round_half_even_Z. done.
Qed.

(** X19.  Rounding is idempotent: [coord_key] applied to the two numbers
    of a coordinate key gives that key again, so a node keeps its identity
    when its own coordinates are looked up. *)
Theorem coord_key_idem (la lo : Qc) :
  coord_key (coord_key la lo).1 (coord_key la lo).2 = coord_key la lo.
Proof. unfold coord_key. simpl. by rewrite !round_idem. Qed.

(** ** The tag counters of [load_osm_data] *)

Lemma count_incr_lookup counts k k' :
  default 0%nat (count_incr counts k !! k')
  = (default 0%nat (counts !! k') + if decide (k = k') then 1 else 0)%nat.
Proof.
  unfold count_incr. destruct (decide (k = k')) as [->|Hne].
  - rewrite lookup_insert_eq. simpl. lia.
  - rewrite lookup_insert_ne by done. lia.
Qed.

Lemma tag_counts_lookup elements usage_counts service_counts k :
  default 0%nat ((tag_counts elements usage_counts service_counts).1 !! k)
  = (default 0%nat (usage_counts !! k)
     + length (filter (λ elem, elem_usage elem = k) elements))%nat
  ∧ default 0%nat ((tag_counts elements usage_counts service_counts).2 !! k)
    = (default 0%nat (service_counts !! k)
       + length (filter (λ elem, elem_service elem = k ∧ k ≠ ""%string)
                   elements))%nat.
Proof.
  revert usage_counts service_counts.
  induction elements as [|elem rest IH]; intros uc sc; simpl; [lia|].
  destruct (IH (count_incr uc (elem_usage elem))
              (if decide (elem_service elem ≠ ""%string)
               then count_incr sc (elem_service elem) else sc)) as [-> ->].
  rewrite !filter_cons, count_incr_lookup. split.
  - destruct (decide (elem_usage elem = k)); simpl; lia.
  - destruct (decide (elem_service elem ≠ ""%string)) as [Hs|Hs].
    + rewrite count_incr_lookup.
      destruct (decide (elem_service elem = k)) as [<-|];
        [rewrite decide_True by done|rewrite decide_False by tauto]; simpl; lia.
    + rewrite decide_False; [lia|]. intros [<- ?]. done.
Qed.

(** X20.  After the loop of [load_osm_data], the usage counter gives for
    every value the number of elements with that usage, elements without
    the tag counted under unknown; the service counter gives for every
    non-empty value the number of elements with that service, and holds
    nothing for the elements without one. *)
Theorem tag_counts_spec (elements : list Element) (k : string) :
  default 0%nat ((tag_counts elements ∅ ∅).1 !! k)
  = length (filter (λ elem, elem_usage elem = k) elements)
  ∧ default 0%nat ((tag_counts elements ∅ ∅).2 !! k)
    = length (filter (λ elem, elem_service elem = k ∧ k ≠ ""%string) elements).
Proof.
  destruct (tag_counts_lookup elements ∅ ∅ k) as [-> ->].
  rewrite !lookup_empty. done.
Qed.

(** ** The update of the trips *)

Lemma route_to_shape_lookup (route_id : string) :
  route_to_shape !! route_id
  = if decide (route_id ∈ ROUTES.*1) then Some route_id else None.
Proof.
  unfold route_to_shape. destruct (decide (route_id ∈ ROUTES.*1)) as [Hin|Hnot].
  - apply elem_of_list_to_map.
    + rewrite <- list_fmap_compose. by vm_compute; repeat constructor;
        rewrite ?elem_of_cons, ?elem_of_nil; intuition discriminate.
    + apply list_elem_of_fmap in Hin as (route & -> & Hroute).
      apply list_elem_of_fmap. by exists route.
  - apply not_elem_of_list_to_map. rewrite <- list_fmap_compose. done.
Qed.

(** X21.  When every trip has a [route_id] and only columns of the header,
    the update succeeds and returns as many trips; each trip keeps all its
    other columns, gets as [shape_id] its route id if the route is in the
    route table and the empty string otherwise, whether or not a shape was
    produced for the route; and every column of every trip is in the new
    header, which keeps the old columns in their order. *)
Theorem update_trips_spec (fieldnames : list string)
    (trips : list (gmap string string)) :
  (∀ trip, trip ∈ trips →
     is_Some (trip !! "route_id"%string)
     ∧ ∀ k, is_Some (trip !! k) → k ∈ fieldnames) →
  fieldnames `prefix_of` update_fieldnames fieldnames
  ∧ ∃ trips',
      update_trips trips = Some trips'
      ∧ Forall2 (λ trip trip',
          (∀ k, k ≠ "shape_id"%string → trip' !! k = trip !! k)
          ∧ (∃ route_id, trip !! "route_id"%string = Some route_id
               ∧ trip' !! "shape_id"%string
                 = Some (if decide (route_id ∈ ROUTES.*1) then route_id
                         else ""%string))
          ∧ ∀ k, is_Some (trip' !! k) → k ∈ update_fieldnames fieldnames)
        trips trips'.
Proof.
  intros Hwf. split.
  { unfold update_fieldnames. case_decide; [done|]. by apply prefix_app_r. }
  unfold update_trips. induction trips as [|trip rest IH].
  - exists []. split; [done|constructor].
  - destruct IH as (rest' & Hrest & Hall).
    { intros t Ht. apply Hwf. by right. }
    destruct (Hwf trip) as [[route_id Hroute] Hcols]; [by left|].
    exists (<["shape_id"%string :=
               default ""%string (route_to_shape !! route_id)]> trip :: rest').
    split.
    { simpl. rewrite Hrest. unfold update_trip. rewrite Hroute. done. }
    constructor; [|done]. repeat split.
    + intros k Hk. by rewrite lookup_insert_ne.
    + exists route_id. split; [done|]. rewrite lookup_insert_eq.
      rewrite route_to_shape_lookup. by case_decide.
    + intros k Hk. unfold update_fieldnames.
      destruct (decide (k = "shape_id"%string)) as [->|Hne].
      * case_decide; [done|]. apply elem_of_app. right. by left.
      * rewrite lookup_insert_ne in Hk by done. apply Hcols in Hk.
        case_decide; [done|]. apply elem_of_app. by left.
Qed.

Lemma update_trips_spec_witness :
  ex_fieldnames `prefix_of` update_fieldnames ex_fieldnames
  ∧ ∃ trips',
      update_trips [ex_trip] = Some trips'
      ∧ Forall2 (λ trip trip',
          (∀ k, k ≠ "shape_id"%string → trip' !! k = trip !! k)
          ∧ (∃ route_id, trip !! "route_id"%string = Some route_id
               ∧ trip' !! "shape_id"%string
                 = Some (if decide (route_id ∈ ROUTES.*1) then route_id
                         else ""%string))
          ∧ ∀ k, is_Some (trip' !! k) → k ∈ update_fieldnames ex_fieldnames)
        [ex_trip] trips'.
Proof.
  apply (update_trips_spec ex_fieldnames [ex_trip]).
  intros trip ->%list_elem_of_singleton. split.
  - exists "TNR_CASA_SETTAT"%string. reflexivity.
  - intros k Hk. unfold ex_trip in Hk.
    destruct (decide (k = "route_id"%string)) as [->|Hr]; [by left|].
    destruct (decide (k = "trip_id"%string)) as [->|Ht]; [right; by left|].
    rewrite lookup_insert_ne in Hk by done.
    rewrite lookup_singleton_ne in Hk by done. by destruct Hk.
Defined.

(** ** The order of the edges of a node *)

Lemma graph_get_append graph k e u :
  graph_get (graph_append graph k e) u
  = if decide (k = u) then graph_get graph u ++ [e] else graph_get graph u.
Proof.
  induction graph as [|[k' es] rest IH]; simpl.
  - destruct (decide (k = u)); done.
  - destruct (decide (k' = k)) as [->|Hne]; simpl.
    + destruct (decide (k = u)); done.
    + destruct (decide (k' = u)) as [->|Hu]; [by rewrite decide_False|done].
Qed.

Lemma build_loop_graph_get segments graph geoms graph' geoms' u :
  build_loop segments (graph, geoms) = Some (graph', geoms') →
  graph_get graph' u
  = graph_get graph u
    ++ (snd <$> filter (λ ke, ke.1 = u) (segments ≫= segment_edges)).
Proof.
  revert graph geoms.
  induction segments as [|seg rest IH]; intros graph geoms; simpl.
  - intros [= <- <-]. by rewrite app_nil_r.
  - destruct (build_step (graph, geoms) seg) as [[g1 m1]|] eqn:Hstep; simpl; [|done].
    intros Hloop. rewrite (IH _ _ Hloop), filter_app, fmap_app, app_assoc.
    f_equal. revert Hstep. unfold build_step, segment_edges.
    destruct (geometry seg) as [geom|]; simpl; [|done].
    case_bool_decide as Hlen.
    + intros [= <- <-].
      destruct (head geom), (last geom); try (by rewrite app_nil_r).
      rewrite decide_False by lia. by rewrite app_nil_r.
    + destruct (head geom) as [p0|]; simpl; [|done].
      destruct (last geom) as [pn|]; simpl; [|done].
      intros [= <- <-]. rewrite decide_True by lia.
      rewrite !graph_get_append, !filter_cons. simpl.
      repeat case_decide; simpl; by rewrite <- ?app_assoc, ?app_nil_r.
Qed.

(** X22.  In the graph [build_track_graph] returns, the list stored under
    a node holds the edges that leave the node in the order of the
    segments, and for one segment the forward edge before the reverse one.
    This is the order in which [find_path_bfs] tries them. *)
Theorem build_track_graph_edge_order (segments : list Element) (graph : Graph)
    (segment_geoms : GeometryStore) (u : Key) :
  build_track_graph segments = Some (graph, segment_geoms) →
  graph_get graph u
  = snd <$> filter (λ ke, ke.1 = u) (segments ≫= segment_edges).
Proof.
  unfold build_track_graph. intros Hbuild.
  by rewrite (build_loop_graph_get _ _ _ _ _ u Hbuild).
Qed.

Lemma build_track_graph_edge_order_witness :
  graph_get chain_graph (node 10)
  = snd <$> filter (λ ke, ke.1 = node 10)
              (load_osm_data chain_elements ≫= segment_edges).
Proof.
  apply (build_track_graph_edge_order (load_osm_data chain_elements)
           chain_graph chain_geoms).
  vm_compute. reflexivity.
Defined.

(** ** A path taken backwards gives the coordinates reversed *)

Lemma join_nil_l points : join [] points = points.
Proof. done. Qed.

Lemma join_nil_r coords : join coords [] = coords.
Proof.
  unfold join, junction_duplicate. destruct (last coords); simpl;
    by rewrite app_nil_r.
Qed.

Lemma junction_duplicate_reverse coords points :
  junction_duplicate (reverse points) (reverse coords)
  = junction_duplicate coords points.
Proof.
  unfold junction_duplicate. rewrite last_reverse, head_reverse.
  destruct (last coords) as [c|], (head points) as [p|]; try done.
  apply bool_decide_ext. split; congruence.
Qed.

Lemma reverse_join coords points :
  reverse (join coords points) = join (reverse points) (reverse coords).
Proof.
  unfold join. rewrite junction_duplicate_reverse, reverse_app.
  destruct (junction_duplicate coords points) eqn:Hjd; [|done].
  unfold junction_duplicate in Hjd.
  destruct (last coords) as [c|] eqn:Hlast; [|done].
  destruct points as [|p points]; [done|]. simpl in Hjd.
  apply bool_decide_eq_true in Hjd as ->.
  apply last_Some in Hlast as [coords' ->].
  rewrite reverse_snoc, reverse_cons. simpl.
  by rewrite drop_0, <- app_assoc.
Qed.

Lemma junction_duplicate_snoc_cons coords c p points :
  junction_duplicate (coords ++ [c]) (p :: points) = bool_decide (c = p).
Proof. unfold junction_duplicate. by rewrite last_snoc. Qed.

Lemma junction_duplicate_cons coords p points :
  junction_duplicate coords (p :: points)
  = match last coords with Some c => bool_decide (c = p) | None => false end.
Proof. done. Qed.

Lemma junction_duplicate_single_cons c p points :
  junction_duplicate [c] (p :: points) = bool_decide (c = p).
Proof. done. Qed.

Lemma junction_duplicate_nil_r coords : junction_duplicate coords [] = false.
Proof. unfold junction_duplicate. by destruct (last coords). Qed.

Ltac junction :=
  repeat (rewrite ?junction_duplicate_snoc_cons, ?junction_duplicate_single_cons,
            ?junction_duplicate_nil_r, ?app_nil_r, ?drop_0;
          simpl;
          try (case_bool_decide; simplify_eq)).

Lemma join_assoc x y z : join (join x y) z = join x (join y z).
Proof.
  destruct y as [|a [|b y]].
  - by rewrite join_nil_r, join_nil_l.
  - destruct x as [|c x _] using rev_ind; destruct z as [|p z];
      unfold join; simpl; junction; rewrite <- ?app_assoc; simpl; junction;
      try done.
  - assert (Hl : ∀ w, junction_duplicate (join x (a :: b :: y)) w
                      = junction_duplicate (a :: b :: y) w).
    { intros w. unfold join, junction_duplicate at 1 3.
      destruct (junction_duplicate x (a :: b :: y)); simpl;
        rewrite last_app; simpl;
        destruct (last (b :: y)) eqn:Hl; try done;
        by apply last_None in Hl. }
    unfold join at 1. rewrite Hl. unfold join. rewrite <- app_assoc. f_equal.
    simpl. rewrite !junction_duplicate_cons.
    destruct (last x) as [c|]; [destruct (bool_decide (c = a))|]; done.
Qed.

Lemma segment_points_negb geom reversed_dir :
  segment_points geom (negb reversed_dir)
  = reverse (segment_points geom reversed_dir).
Proof.
  unfold segment_points. destruct reversed_dir; simpl;
    by rewrite ?reverse_involutive.
Qed.

Lemma path_to_coordinates_from_join coords path (segment_geoms : GeometryStore) :
  path_to_coordinates_from coords path segment_geoms
  = join coords <$> path_to_coordinates_from [] path segment_geoms.
Proof.
  revert coords. induction path as [|[seg_id rd] rest IH]; intros coords; simpl.
  - by rewrite join_nil_r.
  - destruct (segment_geoms !! seg_id) as [geom|]; simpl; [|done].
    fold (join coords (segment_points geom rd)).
    rewrite (IH (join coords _)), (IH (segment_points geom rd)).
    rewrite <- option_fmap_compose. apply option_fmap_ext.
    intros r. simpl. apply join_assoc.
Qed.

(** X23.  Taking a path backwards reverses its coordinates: the list
    assembled from the segments in the opposite order, each in the opposite
    direction, is the reverse of the list assembled from the path, and the
    one stops on a missing key exactly when the other does. *)
Theorem path_to_coordinates_reverse (path : Path) (segment_geoms : GeometryStore) :
  path_to_coordinates (reverse_path path) segment_geoms
  = reverse <$> path_to_coordinates path segment_geoms.
Proof.
  unfold path_to_coordinates.
  induction path as [|[seg_id rd] rest IH]; [done|].
  rewrite reverse_path_cons, path_to_coordinates_from_app, IH. simpl.
  destruct (segment_geoms !! seg_id) as [geom|]; simpl.
  - rewrite (path_to_coordinates_from_join (segment_points geom rd)).
    destruct (path_to_coordinates_from [] rest segment_geoms) as [r|]; simpl;
      [|done].
    rewrite segment_points_negb. fold (join (reverse r) (reverse (segment_points geom rd))).
    by rewrite reverse_join.
  - by destruct (path_to_coordinates_from [] rest segment_geoms).
Qed.

(** ** TrackGraphBuilder on unfiltered input *)

Lemma build_step_None st seg :
  build_step st seg = None ↔ geometry seg = None.
Proof.
  unfold build_step. destruct st as [graph geoms].
  destruct (geometry seg) as [geom|]; simpl; [|done].
  case_bool_decide as Hlen; [done|].
  destruct (head_last_is_Some geom) as [[p0 ->] [pn ->]]; [|done].
  intros ->. simpl in Hlen. lia.
Qed.

(** X24.  [build_track_graph] stops on a missing key exactly when some
    segment of its input has no geometry; a geometry that is present,
    even empty or of one point, never makes it fail.  The filter of
    [load_osm_data] removes the segments without geometry. *)
Theorem build_track_graph_None_iff (segments : list Element) :
  build_track_graph segments = None
  ↔ ∃ seg, seg ∈ segments ∧ geometry seg = None.
Proof.
  unfold build_track_graph. generalize (([], ∅) : Graph * GeometryStore).
  induction segments as [|seg rest IH]; intros st; simpl.
  - split; [done|]. by intros (seg & ?%elem_of_nil & _).
  - destruct (build_step st seg) as [st'|] eqn:Hstep; simpl.
    + rewrite IH. split.
      * intros (s & Hs & Hnone). exists s. split; [by right|done].
      * intros (s & [->|Hs]%elem_of_cons & Hnone); [|by exists s].
        apply (build_step_None st) in Hnone. congruence.
    + split; [|done]. intros _. exists seg. split; [by left|].
      by apply (build_step_None st).
Qed.
